(** * Sentence boundary detection of argos-translate: [argostranslate/sbd.py]

    A shallow embedding of the few-shot / seq2seq sentence boundary detection
    code of [sbd.py] ([generate_fewshot_sbd_prompt], [parse_fewshot_response],
    [process_seq2seq_sbd], [detect_sentence]) together with the part of
    Python's [difflib.SequenceMatcher] that [process_seq2seq_sbd] calls.

    Modelling choices.
    - A Python [str] is the list of its characters, [list ascii]; the texts
      and tokens of [sbd.py] are ASCII.
    - Python integers that can be negative ([str.find], the returned index)
      are [Z]; positions inside a sequence are [nat].
    - A value of type [int] that may also be Python's [None] is [option Z].
    - The float returned by [SequenceMatcher.ratio] is [2.0 * M / T] for two
      integers; it is modelled by the exact quotient in [Q].  IEEE division
      is correctly rounded, hence monotone, and it separates two different
      quotients whose denominators are below [2^26]; on such texts the
      comparison [ratio > best_ratio] of the code is the comparison of the
      exact quotients.
    - [info(...)] only logs and is left out. *)

From Stdlib Require Import Ascii String.
From Stdlib Require Import List Sorted Arith ZArith QArith Lia Bool.
Local Open Scope nat_scope.
Local Open Scope list_scope.
Import ListNotations.

(** ** Python strings *)

Module PyStr.

Definition str : Type := list ascii.

(** A string literal of the source. *)
Definition lit (s : string) : str := list_ascii_of_string s.

(** [s.startswith(sub)] *)
Fixpoint startswith (sub s : str) : bool :=
  match sub, s with
  | [], _ => true
  | _ :: _, [] => false
  | c :: sub', d :: s' => Ascii.eqb c d && startswith sub' s'
  end.

(** [s.find(sub)], scanning from position [pos] of the whole string. *)
Fixpoint find_from (sub s : str) (pos : nat) : Z :=
  if startswith sub s then Z.of_nat pos
  else match s with
       | [] => (-1)%Z
       | _ :: s' => find_from sub s' (S pos)
       end.

Definition find (s sub : str) : Z := find_from sub s 0.

(** [s[:n]] for a Python integer [n]: a negative [n] counts from the end. *)
Definition slice_to (s : str) (n : Z) : str :=
  if (n <? 0)%Z
  then firstn (Z.to_nat (Z.max 0 (Z.of_nat (length s) + n))) s
  else firstn (Z.to_nat n) s.

(** [s.split(sep)] for a non-empty [sep]: [cur] holds the reversed current
    piece, [skip] the characters of a separator still to be dropped. *)
Fixpoint split_go (sep s cur : str) (skip : nat) : list str :=
  match s with
  | [] => [rev cur]
  | c :: s' =>
      match skip with
      | S n => split_go sep s' cur n
      | O =>
          if startswith sep s
          then rev cur :: split_go sep s' [] (length sep - 1)
          else split_go sep s' (c :: cur) 0
      end
  end.

Definition split (s sep : str) : list str := split_go sep s [] 0.

(** [l[-k]] on a list of strings, for [1 <= k <= len(l)]; outside this
    range Python raises [IndexError], and the callers below test the
    length first. *)
Definition getitem_neg (l : list str) (k : nat) : str :=
  nth (length l - k) l [].

End PyStr.

Import PyStr.

(** ** [difflib.SequenceMatcher], as built by [SequenceMatcher()]:
       [isjunk=None], [autojunk=True] *)

Module Difflib.

(** [Match(a, b, size)] *)
Definition Match : Type := (nat * nat * nat)%type.

Definition size (m : Match) : nat := snd m.

Definition item (s : str) (i : nat) : ascii := nth i s zero.

(** [_calculate_ratio(matches, length)] *)
Definition _calculate_ratio (matches length : nat) : Q :=
  if length =? 0 then 1%Q
  else Qmake (2 * Z.of_nat matches) (Pos.of_nat length).

(** The positions of [elt] in [s], ascending: the list that [__chain_b]
    stores under the key [elt]. *)
Fixpoint indices_from (elt : ascii) (s : str) (pos : nat) : list nat :=
  match s with
  | [] => []
  | c :: s' =>
      if Ascii.eqb c elt then pos :: indices_from elt s' (S pos)
      else indices_from elt s' (S pos)
  end.

(** A dict from positions to lengths that is only read through
    [.get(key, 0)]: the function that gives 0 outside the keys. *)
Definition j2len_t : Type := nat -> nat.
Definition j2len_empty : j2len_t := fun _ => 0.
Definition j2len_set (m : j2len_t) (j k : nat) : j2len_t :=
  fun x => if x =? j then k else m x.
(** [j2len.get(j-1, 0)]: the key [-1] is never in the dict. *)
Definition j2lenget_pred (m : j2len_t) (j : nat) : nat :=
  match j with O => 0 | S j' => m j' end.

Section SequenceMatcher.

Variables a b : str.

(** [bpopular] of [__chain_b]: with [autojunk], in a [b] of 200 items or
    more, the items that occur more than [n // 100 + 1] times. *)
Definition bpopular (elt : ascii) : bool :=
  (200 <=? length b) &&
  (length b / 100 + 1 <? length (indices_from elt b 0)).

(** [b2j.get(elt, nothing)]: [isjunk] is [None], so only the popular
    items are deleted from [b2j]. *)
Definition b2j (elt : ascii) : list nat :=
  if bpopular elt then [] else indices_from elt b 0.

Section FindLongestMatch.

Variables alo ahi blo bhi : nat.

(** The inner loop [for j in b2j.get(a[i], nothing)], with its
    [continue] and [break].  [i - k + 1] is written [i + 1 - k]: the
    length read from [j2len] is at most [i - alo]
    ([j2lenget_pred_bound] below), so [k <= i + 1] and the
    subtraction on [nat] is the one on integers. *)
Fixpoint scan_row (i : nat) (j2len : j2len_t) (js : list nat)
         (newj2len : j2len_t) (best : Match) : j2len_t * Match :=
  match js with
  | [] => (newj2len, best)
  | j :: js' =>
      if j <? blo then scan_row i j2len js' newj2len best
      else if bhi <=? j then (newj2len, best)
      else
        let k := j2lenget_pred j2len j + 1 in
        scan_row i j2len js' (j2len_set newj2len j k)
                 (if size best <? k then (i + 1 - k, j + 1 - k, k)
                  else best)
  end.

(** The outer loop [for i in range(alo, ahi)]. *)
Definition scan_rows : j2len_t * Match :=
  fold_left
    (fun st i => scan_row i (fst st) (b2j (item a i)) j2len_empty (snd st))
    (seq alo (ahi - alo))
    (j2len_empty, (alo, blo, 0)).

(** First [while]: extend the match to the left.  [bjunk] is empty,
    so [not isbjunk(...)] is always true. *)
Fixpoint extend_left (besti bestj bestsize : nat) {struct besti} : Match :=
  match besti, bestj with
  | S i', S j' =>
      if (alo <? besti) && (blo <? bestj)
         && Ascii.eqb (item a i') (item b j')
      then extend_left i' j' (bestsize + 1)
      else (besti, bestj, bestsize)
  | _, _ => (besti, bestj, bestsize)
  end.

(** Second [while]: extend the match to the right; [n] bounds the
    number of turns by [ahi - (besti + bestsize)], after which the
    loop test is false. *)
Fixpoint extend_right (n besti bestj bestsize : nat) : Match :=
  match n with
  | O => (besti, bestj, bestsize)
  | S n' =>
      if (besti + bestsize <? ahi) && (bestj + bestsize <? bhi)
         && Ascii.eqb (item a (besti + bestsize)) (item b (bestj + bestsize))
      then extend_right n' besti bestj (bestsize + 1)
      else (besti, bestj, bestsize)
  end.

(** [find_longest_match(alo, ahi, blo, bhi)].  The last two [while]
    loops of the Python function absorb junk items ([isbjunk(...)]
    in their test); with an empty [bjunk] they never run. *)
Definition find_longest_match : Match :=
  let '(besti, bestj, bestsize) := snd scan_rows in
  let '(besti, bestj, bestsize) := extend_left besti bestj bestsize in
  extend_right (ahi - (besti + bestsize)) besti bestj bestsize.

End FindLongestMatch.

Definition region : Type := (nat * nat * nat * nat)%type.

(** The [while queue:] loop of [get_matching_blocks].  The head of
    [queue] is the element that [queue.pop()] takes.  [fuel] bounds the
    number of turns; [None] means it ran out. *)
Fixpoint blocks_loop (fuel : nat) (queue : list region)
         (matching_blocks : list Match) : option (list Match) :=
  match queue with
  | [] => Some matching_blocks
  | (alo, ahi, blo, bhi) :: queue' =>
      match fuel with
      | O => None
      | S fuel' =>
          let '(i, j, k) := find_longest_match alo ahi blo bhi in
          if k =? 0 then blocks_loop fuel' queue' matching_blocks
          else
            let q1 := if (alo <? i) && (blo <? j)
                      then (alo, i, blo, j) :: queue' else queue' in
            let q2 := if (i + k <? ahi) && (j + k <? bhi)
                      then (i + k, ahi, j + k, bhi) :: q1 else q1 in
            blocks_loop fuel' q2 (matching_blocks ++ [(i, j, k)])
      end
  end.

(** Every turn of the loop takes a region off the queue and puts back
    regions that are strictly shorter in total, so [2 * len(a) + 1]
    turns are enough ([found_blocks_total] below). *)
Definition found_blocks : list Match :=
  match blocks_loop (2 * length a + 1) [(0, length a, 0, length b)] [] with
  | Some l => l
  | None => []
  end.

End SequenceMatcher.

(** [matching_blocks.sort()]: tuples compare lexicographically. *)
Definition match_leb (x y : Match) : bool :=
  let '(i1, j1, k1) := x in
  let '(i2, j2, k2) := y in
  (i1 <? i2) || ((i1 =? i2) && ((j1 <? j2) || ((j1 =? j2) && (k1 <=? k2)))).

Fixpoint insert_sorted (x : Match) (l : list Match) : list Match :=
  match l with
  | [] => [x]
  | y :: l' => if match_leb x y then x :: l else y :: insert_sorted x l'
  end.

Definition sort_blocks (l : list Match) : list Match :=
  fold_right insert_sorted [] l.

(** The loop that collapses adjacent blocks, and the append after it. *)
Fixpoint collapse (l : list Match) (cur : Match) (non_adjacent : list Match)
  : list Match :=
  let '(i1, j1, k1) := cur in
  match l with
  | [] => if k1 =? 0 then non_adjacent else non_adjacent ++ [cur]
  | (i2, j2, k2) :: l' =>
      if (i1 + k1 =? i2) && (j1 + k1 =? j2)
      then collapse l' (i1, j1, k1 + k2) non_adjacent
      else collapse l' (i2, j2, k2)
                    (if k1 =? 0 then non_adjacent else non_adjacent ++ [cur])
  end.

Definition get_matching_blocks (a b : str) : list Match :=
  collapse (sort_blocks (found_blocks a b)) (0, 0, 0) []
  ++ [(length a, length b, 0)].

(** [sm.set_seqs(a, b); sm.ratio()] *)
Definition ratio (a b : str) : Q :=
  let matches := list_sum (map size (get_matching_blocks a b)) in
  _calculate_ratio matches (length a + length b).

End Difflib.

(** ** [sbd.py]: the constants *)

Definition nl : ascii := "010"%char.

Definition fewshot_prompt : str :=
  lit "<detect-sentence-boundaries> I walked down to the river. Then I went to the" ++ [nl] ++
  lit "I walked down to the river. <sentence-boundary>" ++ [nl] ++
  lit "----------" ++ [nl] ++
  lit "<detect-sentence-boundaries> Argos Translate is machine translation software. It is also" ++ [nl] ++
  lit "Argos Translate is machine translation software. <sentence-boundary>" ++ [nl] ++
  lit "----------" ++ [nl] ++
  lit "<detect-sentence-boundaries> Argos Translate is written in Python and uses OpenAI. It also supports" ++ [nl] ++
  lit "Argos Translate is written in Python and uses OpenAI. <sentence-boundary>" ++ [nl] ++
  lit "----------" ++ [nl].

Definition DETECT_SENTENCE_BOUNDARIES_TOKEN : str := lit "<detect-sentence-boundaries>".
Definition SENTENCE_BOUNDARY_TOKEN : str := lit "<sentence-boundary>".
(** ["-" * 10] *)
Definition FEWSHOT_BOUNDARY_TOKEN : str := concat (repeat (lit "-") 10).

(** The default value of the parameter [sentence_guess_length]. *)
Definition default_sentence_guess_length : Z := 150.

(** ** [generate_fewshot_sbd_prompt] *)

Definition generate_fewshot_sbd_prompt (input_text : str) (sentence_guess_length : Z) : str :=
  let sentence_guess := slice_to input_text sentence_guess_length in
  let to_return := fewshot_prompt ++ lit "<detect-sentence-boundaries> " ++ sentence_guess in
  to_return.

(** ** [parse_fewshot_response]: the result is a [str] or [None] *)

Definition parse_fewshot_response (response_text : str) : option str :=
  let response := split response_text FEWSHOT_BOUNDARY_TOKEN in
  if length response <? 2 then None
  else
    let response := split (getitem_neg response 2) [nl] in
    if length response <? 2 then None
    else Some (getitem_neg response 1).

(** ** [process_seq2seq_sbd] *)

(** [ratio > best_ratio] *)
Definition Qgtb (x y : Q) : bool := negb (Qle_bool x y).

(** The variables of the search loop.  [computed] is not a variable of the
    source: it records, in order, every index [i] for which [sm.ratio()]
    was evaluated, with the value obtained. *)
Record search_state : Type := {
  best_index : option nat;
  best_ratio : Q;
  computed : list (nat * Q)
}.

Definition search_init : search_state :=
  {| best_index := None; best_ratio := 0%Q; computed := [] |}.

Definition is_none {A : Type} (o : option A) : bool :=
  match o with None => true | Some _ => false end.

(** The body of [for i in range(len(input_text))]. *)
Definition search_step (input_text sbd_translated_guess : str)
           (st : search_state) (i : nat) : search_state :=
  let candidate_sentence := firstn i input_text in
  let ratio := Difflib.ratio candidate_sentence sbd_translated_guess in
  let computed' := computed st ++ [(i, ratio)] in
  if is_none (best_index st) || Qgtb ratio (best_ratio st)
  then {| best_index := Some i; best_ratio := ratio; computed := computed' |}
  else {| best_index := best_index st; best_ratio := best_ratio st;
          computed := computed' |}.

(** [process_seq2seq_sbd] together with the record of the ratios it
    evaluated.  The returned value is an [int] or, when the loop body never
    ran, the initial [best_index = None]. *)
Definition process_seq2seq_sbd_run (input_text sbd_translated_guess : str)
  : option Z * list (nat * Q) :=
  let sbd_translated_guess_index := find sbd_translated_guess SENTENCE_BOUNDARY_TOKEN in
  if negb (sbd_translated_guess_index =? -1)%Z then
    let sbd_translated_guess :=
      slice_to sbd_translated_guess sbd_translated_guess_index in
    let st := fold_left (search_step input_text sbd_translated_guess)
                        (seq 0 (length input_text)) search_init in
    (option_map Z.of_nat (best_index st), computed st)
  else (Some (-1)%Z, []).

Definition process_seq2seq_sbd (input_text sbd_translated_guess : str) : option Z :=
  fst (process_seq2seq_sbd_run input_text sbd_translated_guess).

(** ** [detect_sentence]: [sbd_translation.translate] is the function
       [sbd_translation] *)

Definition detect_sentence (input_text : str) (sbd_translation : str -> str)
           (sentence_guess_length : Z) : option Z :=
  let sentence_guess := slice_to input_text sentence_guess_length in
  let sbd_translated_guess :=
    sbd_translation (DETECT_SENTENCE_BOUNDARIES_TOKEN ++ sentence_guess) in
  process_seq2seq_sbd input_text sbd_translated_guess.

(** ** [get_sbd_package] *)

(** [pkg.type == "sbd"]: equality of two strings. *)
Fixpoint str_eqb (s t : str) : bool :=
  match s, t with
  | [], [] => true
  | c :: s', d :: t' => Ascii.eqb c d && str_eqb s' t'
  | _, _ => false
  end.

Section GetSbdPackage.

(** The class [Package] is declared in [argostranslate/package.py]; the
    function reads only the attribute [type] of a package. *)
Variable Package : Type.
Variable pkg_type : Package -> str.

(** The loop [for pkg in packages], where [packages] is the list that
    [package.get_installed_packages()] returned. *)
Fixpoint get_sbd_package (packages : list Package) : option Package :=
  match packages with
  | [] => None
  | pkg :: packages' =>
      if str_eqb (pkg_type pkg) (lit "sbd") then Some pkg
      else get_sbd_package packages'
  end.

End GetSbdPackage.

Arguments get_sbd_package {Package} pkg_type packages.

(** ** The wording of the specification, for comparison *)

(** One few-shot exemplar: the control token and the full example text, a
    newline, the truncated text and the boundary marker, a newline. *)
Definition exemplar (full truncated : string) : str :=
  DETECT_SENTENCE_BOUNDARIES_TOKEN ++ lit " " ++ lit full ++ [nl] ++
  lit truncated ++ lit " " ++ SENTENCE_BOUNDARY_TOKEN ++ [nl].

(** The response parser as the specification words it: split on the ten
    dashes; with fewer than two segments there is no guess; otherwise take
    the second-to-last segment and split it on newlines; with fewer than two
    lines there is no guess; otherwise the guess is the last line. *)
Definition parse_fewshot_response_spec (raw : str) : option str :=
  match rev (split raw (lit "----------")) with
  | _ :: segment :: _ =>
      match rev (split segment (lit (String nl EmptyString))) with
      | last_line :: _ :: _ => Some last_line
      | _ => None
      end
  | _ => None
  end.

(** The inputs of the end-to-end example. *)
Definition river_text : str :=
  lit "I walked down to the river. Then I went to the store.".
Definition river_stub : str -> str :=
  fun _ => lit "I walked down to the river.<sentence-boundary> Then I went".

(** ** Vocabulary of the proofs about [SequenceMatcher] *)

(** A match lies inside the region it was searched in. *)
Definition inside (alo ahi blo bhi : nat) (m : Difflib.Match) : Prop :=
  let '(i, j, k) := m in alo <= i /\ i + k <= ahi /\ blo <= j /\ j + k <= bhi.

(** A region of the work queue is well formed. *)
Definition region_ok (q : Difflib.region) : Prop :=
  let '(alo, ahi, blo, bhi) := q in alo <= ahi /\ blo <= bhi.

(** The room for matches in a region, and the number of loop turns that a
    region can still cause. *)
Definition region_cap (q : Difflib.region) : nat :=
  let '(alo, ahi, blo, bhi) := q in Nat.min (ahi - alo) (bhi - blo).
Definition region_weight (q : Difflib.region) : nat :=
  let '(alo, ahi, blo, bhi) := q in 2 * (ahi - alo) + 1.

Definition total_size (l : list Difflib.Match) : nat :=
  list_sum (map Difflib.size l).

(** Every entry of a row of lengths is at most [c], and the entry at [j] is
    at most [j + 1 - blo]. *)
Definition row_bound (blo c : nat) (m : Difflib.j2len_t) : Prop :=
  forall j, m j <= c /\ m j <= j + 1 - blo.

(** The length of the run of items of [s] that are not popular and end at
    position [j]. *)
Fixpoint clean_run (s : str) (j : nat) : nat :=
  if Difflib.bpopular s (Difflib.item s j) then 0
  else match j with O => 1 | S j' => S (clean_run s j') end.

Definition prev_clean_run (s : str) (i : nat) : nat :=
  match i with O => 0 | S i' => clean_run s i' end.

(** * Properties *)

(** ** The models of the Python library on examples of its documentation *)

Example get_matching_blocks_doc :
  Difflib.get_matching_blocks (lit "abxcd") (lit "abcd")
  = [(0, 0, 2); (3, 2, 2); (5, 4, 0)].
Proof. reflexivity. Qed.

Example ratio_doc : (Difflib.ratio (lit "abcd") (lit "bcde") == 75 # 100)%Q.
Proof. reflexivity. Qed.

Example split_trailing_separator :
  split (lit "a--b--") (lit "--") = [lit "a"; lit "b"; lit ""].
Proof. reflexivity. Qed.

Example find_absent : find (lit "Hola.") SENTENCE_BOUNDARY_TOKEN = (-1)%Z.
Proof. reflexivity. Qed.

(** ** Prompt construction *)

Lemma FEWSHOT_BOUNDARY_TOKEN_ten_dashes :
  FEWSHOT_BOUNDARY_TOKEN = lit "----------".
Proof. reflexivity. Qed.

Lemma fewshot_prompt_exemplars :
  fewshot_prompt =
    exemplar "I walked down to the river. Then I went to the"
             "I walked down to the river."
    ++ FEWSHOT_BOUNDARY_TOKEN ++ [nl] ++
    exemplar "Argos Translate is machine translation software. It is also"
             "Argos Translate is machine translation software."
    ++ FEWSHOT_BOUNDARY_TOKEN ++ [nl] ++
    exemplar "Argos Translate is written in Python and uses OpenAI. It also supports"
             "Argos Translate is written in Python and uses OpenAI."
    ++ FEWSHOT_BOUNDARY_TOKEN ++ [nl].
Proof. vm_compute. reflexivity. Qed.

Lemma slice_to_of_nat (s : str) (n : nat) : slice_to s (Z.of_nat n) = firstn n s.
Proof.
  unfold slice_to.
  destruct (Z.ltb_spec (Z.of_nat n) 0) as [H | _]; [lia |].
  now rewrite Nat2Z.id.
Qed.

(** C8: for every input text and every guess length, the prompt returned by
    [generate_fewshot_sbd_prompt] is the fixed exemplar block, then the
    control token, one space, and the first [sentence_guess_length]
    characters of the input text; being a function of its two arguments, the
    output is determined by them. *)
Theorem generate_fewshot_sbd_prompt_exact (input_text : str) (n : nat) :
  generate_fewshot_sbd_prompt input_text (Z.of_nat n) =
    fewshot_prompt ++ DETECT_SENTENCE_BOUNDARIES_TOKEN ++ lit " "
    ++ firstn n input_text.
Proof.
  unfold generate_fewshot_sbd_prompt.
  rewrite slice_to_of_nat.
  reflexivity.
Qed.

(** ** Response parsing *)

Lemma getitem_neg_last (l : list str) (x : str) : getitem_neg (l ++ [x]) 1 = x.
Proof.
  unfold getitem_neg.
  rewrite length_app; simpl.
  replace (length l + 1 - 1) with (length l) by lia.
  now rewrite nth_middle.
Qed.

Lemma getitem_neg_second_to_last (l : list str) (x y : str) :
  getitem_neg (l ++ [x; y]) 2 = x.
Proof.
  unfold getitem_neg.
  rewrite length_app; simpl.
  replace (length l + 2 - 2) with (length l) by lia.
  now rewrite nth_middle.
Qed.

Lemma rev_cases {A : Type} (l : list A) :
  l = [] \/ (exists x, l = [x]) \/ (exists l' x y, l = l' ++ [x; y]).
Proof.
  destruct (rev l) as [| y [| x r]] eqn:E;
    apply (f_equal (@rev A)) in E; rewrite rev_involutive in E; simpl in E.
  - now left.
  - right; left; now exists y.
  - right; right. exists (rev r), x, y. now rewrite <- app_assoc in E.
Qed.

(** C7: [parse_fewshot_response] does what the specification says: split on
    the ten-dash separator, [None] with fewer than 2 segments, else the
    second-to-last segment split on newlines, [None] with fewer than 2
    lines, else the last line of that segment. *)
Theorem parse_fewshot_response_refines (response_text : str) :
  parse_fewshot_response response_text = parse_fewshot_response_spec response_text.
Proof.
  unfold parse_fewshot_response, parse_fewshot_response_spec.
  rewrite FEWSHOT_BOUNDARY_TOKEN_ten_dashes.
  change (lit (String nl EmptyString)) with [nl].
  destruct (rev_cases (split response_text (lit "----------")))
    as [E | [[x E] | [l' [x [y E]]]]]; rewrite E.
  - reflexivity.
  - reflexivity.
  - rewrite getitem_neg_second_to_last.
    rewrite rev_app_distr, length_app; simpl.
    destruct (Nat.ltb_spec (length l' + 2) 2) as [H | _]; [lia |].
    destruct (rev_cases (split x [nl])) as [F | [[u F] | [m' [u [v F]]]]];
      rewrite F.
    + reflexivity.
    + reflexivity.
    + rewrite rev_app_distr, length_app; simpl.
      destruct (Nat.ltb_spec (length m' + 2) 2) as [H | _]; [lia |].
      change [u; v] with ([u] ++ [v]).
      rewrite app_assoc, getitem_neg_last.
      reflexivity.
Qed.

(** ** [find_longest_match] stays inside its region *)

Section FindLongestMatchBounds.

Variables a b : str.
Variables alo ahi blo bhi : nat.
Hypothesis Ha : alo <= ahi.
Hypothesis Hb : blo <= bhi.

Lemma j2lenget_pred_bound (c : nat) (m : Difflib.j2len_t) (j : nat) :
  row_bound blo c m -> blo <= j ->
  Difflib.j2lenget_pred m j <= c /\ Difflib.j2lenget_pred m j <= j - blo.
Proof.
  intros Hm Hj. destruct j as [| j']; unfold Difflib.j2lenget_pred.
  - lia.
  - destruct (Hm j') as [H1 H2]. lia.
Qed.

Lemma row_bound_set (c : nat) (m : Difflib.j2len_t) (j k : nat) :
  row_bound blo c m -> k <= c -> k <= j + 1 - blo ->
  row_bound blo c (Difflib.j2len_set m j k).
Proof.
  intros Hm Hc Hj x. unfold Difflib.j2len_set.
  destruct (Nat.eqb_spec x j) as [-> | _]; [lia | apply Hm].
Qed.

Lemma scan_row_bounds (i : nat) (j2len : Difflib.j2len_t) (js : list nat) :
  alo <= i < ahi ->
  row_bound blo (i - alo) j2len ->
  forall (newj2len : Difflib.j2len_t) (best : Difflib.Match),
    row_bound blo (i + 1 - alo) newj2len ->
    inside alo ahi blo bhi best ->
    row_bound blo (i + 1 - alo)
              (fst (Difflib.scan_row blo bhi i j2len js newj2len best)) /\
    inside alo ahi blo bhi
           (snd (Difflib.scan_row blo bhi i j2len js newj2len best)).
Proof.
  intros Hi Hold.
  induction js as [| j js IH]; intros newj2len best Hnew Hbest;
    cbn [Difflib.scan_row].
  - now split.
  - destruct (Nat.ltb_spec j blo) as [_ | Hj1]; [now apply IH |].
    destruct (Nat.leb_spec bhi j) as [_ | Hj2]; [now split |].
    destruct (j2lenget_pred_bound (i - alo) j2len j Hold Hj1) as [H1 H2].
    apply IH.
    + apply row_bound_set; [assumption | lia | lia].
    + destruct (Nat.ltb_spec (Difflib.size best)
                             (Difflib.j2lenget_pred j2len j + 1)) as [_ | _];
        [| assumption].
      unfold inside. lia.
Qed.

Lemma scan_rows_prefix_bounds (n : nat) :
  n <= ahi - alo ->
  let st := fold_left
              (fun st i => Difflib.scan_row blo bhi i (fst st)
                             (Difflib.b2j b (Difflib.item a i))
                             Difflib.j2len_empty (snd st))
              (seq alo n) (Difflib.j2len_empty, (alo, blo, 0)) in
  row_bound blo n (fst st) /\ inside alo ahi blo bhi (snd st).
Proof.
  induction n as [| n IH]; intros Hn; cbn zeta.
  - cbn [seq fold_left fst snd].
    split; [intro j; unfold Difflib.j2len_empty; lia | unfold inside; lia].
  - rewrite seq_S, fold_left_app. cbn [fold_left].
    destruct IH as [H1 H2]; [lia |].
    replace (row_bound blo (S n)) with (row_bound blo (alo + n + 1 - alo))
      by (f_equal; lia).
    apply scan_row_bounds.
    + lia.
    + replace (alo + n - alo) with n by lia. exact H1.
    + intro j. unfold Difflib.j2len_empty. lia.
    + exact H2.
Qed.

Lemma scan_rows_bounds :
  inside alo ahi blo bhi (snd (Difflib.scan_rows a b alo ahi blo bhi)).
Proof.
  apply (scan_rows_prefix_bounds (ahi - alo)). lia.
Qed.

Lemma extend_left_bounds (besti : nat) :
  forall bestj bestsize,
    inside alo ahi blo bhi (besti, bestj, bestsize) ->
    inside alo ahi blo bhi (Difflib.extend_left a b alo blo besti bestj bestsize).
Proof.
  induction besti as [| i' IH]; intros bestj bestsize H;
    cbn [Difflib.extend_left].
  - destruct bestj; exact H.
  - destruct bestj as [| j']; [exact H |].
    destruct (Nat.ltb_spec alo (S i')) as [H1 | _]; cbn [andb]; [| exact H].
    destruct (Nat.ltb_spec blo (S j')) as [H2 | _]; cbn [andb]; [| exact H].
    destruct (Ascii.eqb _ _); [| exact H].
    apply IH. unfold inside in *. lia.
Qed.

Lemma extend_right_bounds (n : nat) :
  forall besti bestj bestsize,
    inside alo ahi blo bhi (besti, bestj, bestsize) ->
    inside alo ahi blo bhi (Difflib.extend_right a b ahi bhi n besti bestj bestsize).
Proof.
  induction n as [| n IH]; intros besti bestj bestsize H;
    cbn [Difflib.extend_right].
  - exact H.
  - destruct (Nat.ltb_spec (besti + bestsize) ahi) as [H1 | _]; cbn [andb]; [| exact H].
    destruct (Nat.ltb_spec (bestj + bestsize) bhi) as [H2 | _]; cbn [andb]; [| exact H].
    destruct (Ascii.eqb _ _); [| exact H].
    apply IH. unfold inside in *. lia.
Qed.

Lemma find_longest_match_bounds :
  inside alo ahi blo bhi (Difflib.find_longest_match a b alo ahi blo bhi).
Proof.
  unfold Difflib.find_longest_match.
  pose proof scan_rows_bounds as H.
  destruct (snd (Difflib.scan_rows a b alo ahi blo bhi)) as [[i j] k].
  apply extend_left_bounds in H.
  destruct (Difflib.extend_left a b alo blo i j k) as [[i' j'] k'].
  now apply extend_right_bounds.
Qed.

End FindLongestMatchBounds.

(** ** [get_matching_blocks] terminates and matches at most [min(la, lb)]
       items *)

Lemma list_sum_map_cons {A : Type} (f : A -> nat) (x : A) (l : list A) :
  list_sum (map f (x :: l)) = f x + list_sum (map f l).
Proof. reflexivity. Qed.

Lemma total_size_nil : total_size [] = 0.
Proof. reflexivity. Qed.

Lemma total_size_cons (x : Difflib.Match) (l : list Difflib.Match) :
  total_size (x :: l) = Difflib.size x + total_size l.
Proof. reflexivity. Qed.

Lemma total_size_app (l1 l2 : list Difflib.Match) :
  total_size (l1 ++ l2) = total_size l1 + total_size l2.
Proof.
  unfold total_size. now rewrite map_app, list_sum_app.
Qed.

Lemma list_sum_map_nil {A : Type} (f : A -> nat) : list_sum (map f []) = 0.
Proof. reflexivity. Qed.

Ltac sums :=
  rewrite ?list_sum_map_cons, ?list_sum_map_nil,
    ?total_size_app, ?total_size_cons, ?total_size_nil in *;
  change (total_size []) with 0 in *;
  cbn [region_weight region_cap region_ok Difflib.size snd] in *.

Section MatchingBlocks.

Variables a b : str.

Lemma blocks_loop_total (fuel : nat) :
  forall (queue : list Difflib.region) (acc : list Difflib.Match),
    Forall region_ok queue ->
    list_sum (map region_weight queue) <= fuel ->
    exists l,
      Difflib.blocks_loop a b fuel queue acc = Some l /\
      total_size l <= total_size acc + list_sum (map region_cap queue).
Proof.
  induction fuel as [| fuel IH]; intros queue acc Hok Hw.
  - destruct queue as [| [[[alo ahi] blo] bhi] queue'].
    + exists acc. split; [reflexivity | lia].
    + sums. lia.
  - destruct queue as [| [[[alo ahi] blo] bhi] queue'].
    + exists acc. split; [reflexivity | lia].
    + inversion Hok as [| q0 l0 Hq Hok']; subst.
      destruct Hq as [Ha Hb].
      pose proof (find_longest_match_bounds a b alo ahi blo bhi Ha Hb) as Hin.
      cbn [Difflib.blocks_loop].
      destruct (Difflib.find_longest_match a b alo ahi blo bhi) as [[i j] k].
      unfold inside in Hin. clear Hok.
      rewrite list_sum_map_cons in Hw |- *.
      cbn [region_weight region_cap] in Hw |- *.
      destruct (Nat.eqb_spec k 0) as [Hk | Hk].
      * destruct (IH queue' acc Hok') as (l & Hl & Hs); [lia |].
        exists l. split; [exact Hl | lia].
      * destruct (Nat.ltb_spec alo i) as [L1 | L1];
          destruct (Nat.ltb_spec blo j) as [L2 | L2];
          destruct (Nat.ltb_spec (i + k) ahi) as [R1 | R1];
          destruct (Nat.ltb_spec (j + k) bhi) as [R2 | R2];
          cbn [andb];
          match goal with
          | |- exists l, Difflib.blocks_loop a b fuel ?q ?acc' = Some l /\ _ =>
              destruct (IH q acc') as (l & Hl & Hs);
              [ repeat (apply Forall_cons; [unfold region_ok; lia |]); exact Hok'
              | sums; lia
              | exists l; split; [exact Hl |]; sums; lia ]
          end.
Qed.

(** The loop of [get_matching_blocks] ends within the turns it is given:
    [found_blocks] never takes its [None] branch. *)
Lemma found_blocks_total :
  exists l,
    Difflib.blocks_loop a b (2 * length a + 1) [(0, length a, 0, length b)] []
    = Some l /\ Difflib.found_blocks a b = l.
Proof.
  destruct (blocks_loop_total (2 * length a + 1)
              [(0, length a, 0, length b)] [])
    as (l & Hl & _).
  - apply Forall_cons; [unfold region_ok; lia | constructor].
  - sums. lia.
  - exists l. split; [exact Hl |]. unfold Difflib.found_blocks. now rewrite Hl.
Qed.

Lemma found_blocks_size :
  total_size (Difflib.found_blocks a b) <= Nat.min (length a) (length b).
Proof.
  unfold Difflib.found_blocks.
  destruct (blocks_loop_total (2 * length a + 1)
              [(0, length a, 0, length b)] [])
    as (l & Hl & Hs).
  - apply Forall_cons; [unfold region_ok; lia | constructor].
  - sums. lia.
  - rewrite Hl. sums. lia.
Qed.

End MatchingBlocks.

Lemma total_size_insert_sorted (x : Difflib.Match) (l : list Difflib.Match) :
  total_size (Difflib.insert_sorted x l) = Difflib.size x + total_size l.
Proof.
  induction l as [| y l IH]; cbn [Difflib.insert_sorted].
  - reflexivity.
  - destruct (Difflib.match_leb x y); [reflexivity |].
    rewrite !total_size_cons, IH. lia.
Qed.

Lemma total_size_sort_blocks (l : list Difflib.Match) :
  total_size (Difflib.sort_blocks l) = total_size l.
Proof.
  induction l as [| x l IH]; [reflexivity |].
  cbn [Difflib.sort_blocks fold_right].
  fold (Difflib.sort_blocks l).
  rewrite total_size_insert_sorted, total_size_cons, IH. reflexivity.
Qed.

Lemma total_size_collapse (l : list Difflib.Match) :
  forall (cur : Difflib.Match) (non_adjacent : list Difflib.Match),
    total_size (Difflib.collapse l cur non_adjacent) =
      total_size non_adjacent + Difflib.size cur + total_size l.
Proof.
  assert (Hflush : forall i j k acc,
             total_size (if k =? 0 then acc else acc ++ [(i, j, k)]) =
               total_size acc + k).
  { intros i j k acc. destruct (Nat.eqb_spec k 0) as [E | _].
    - lia.
    - rewrite total_size_app, total_size_cons. cbn [Difflib.size snd].
      change (total_size []) with 0. lia. }
  induction l as [| [[i2 j2] k2] l IH]; intros [[i1 j1] k1] acc;
    cbn [Difflib.collapse].
  - rewrite Hflush. change (total_size []) with 0. cbn [Difflib.size snd]. lia.
  - rewrite total_size_cons.
    destruct ((i1 + k1 =? i2) && (j1 + k1 =? j2)).
    + rewrite IH. cbn [Difflib.size snd]. lia.
    + rewrite IH, Hflush. cbn [Difflib.size snd]. lia.
Qed.

Lemma total_size_get_matching_blocks (a b : str) :
  total_size (Difflib.get_matching_blocks a b) = total_size (Difflib.found_blocks a b).
Proof.
  unfold Difflib.get_matching_blocks.
  rewrite total_size_app, total_size_collapse, total_size_sort_blocks.
  rewrite total_size_cons. change (total_size []) with 0.
  cbn [Difflib.size snd]. lia.
Qed.

Lemma Zpos_of_nat (n : nat) : n <> 0 -> Zpos (Pos.of_nat n) = Z.of_nat n.
Proof.
  intro H. rewrite <- positive_nat_Z, Nat2Pos.id by exact H. reflexivity.
Qed.

(** ** A sequence matched against itself: one block, the whole sequence *)

Lemma indices_from_in (elt : ascii) (s : str) :
  forall pos j,
    In j (Difflib.indices_from elt s pos) <->
    pos <= j < pos + length s /\ nth (j - pos) s zero = elt.
Proof.
  induction s as [| c s IH]; intros pos j; cbn [Difflib.indices_from length].
  - split; [intros [] | lia].
  - assert (Hrest : In j (Difflib.indices_from elt s (S pos)) <->
                    pos < j < pos + S (length s) /\ nth (j - pos) (c :: s) zero = elt).
    { rewrite IH. split; intros [H1 H2].
      - split; [lia |]. replace (j - pos) with (S (j - S pos)) by lia. exact H2.
      - split; [lia |]. replace (j - pos) with (S (j - S pos)) in H2 by lia. exact H2. }
    destruct (Ascii.eqb_spec c elt) as [E | E].
    + cbn [In]. rewrite Hrest. split.
      * intros [<- | [H1 H2]].
        -- split; [lia |]. now rewrite Nat.sub_diag.
        -- split; [lia | exact H2].
      * intros [H1 H2]. destruct (Nat.eq_dec pos j) as [-> | Hne]; [now left |].
        right. split; [lia | exact H2].
    + rewrite Hrest. split.
      * intros [H1 H2]. split; [lia | exact H2].
      * intros [H1 H2]. split; [| exact H2].
        destruct (Nat.eq_dec pos j) as [<- | Hne]; [| lia].
        rewrite Nat.sub_diag in H2. cbn in H2. contradiction.
Qed.

Lemma indices_from_sorted (elt : ascii) (s : str) :
  forall pos, StronglySorted lt (Difflib.indices_from elt s pos).
Proof.
  induction s as [| c s IH]; intros pos; cbn [Difflib.indices_from].
  - constructor.
  - destruct (Ascii.eqb c elt); [| apply IH].
    constructor; [apply IH |].
    apply Forall_forall. intros j Hj. apply indices_from_in in Hj. lia.
Qed.

Section SelfMatch.

Variable s : str.

Lemma b2j_in (elt : ascii) (j : nat) :
  In j (Difflib.b2j s elt) ->
  j < length s /\ Difflib.item s j = elt /\ Difflib.bpopular s elt = false.
Proof.
  unfold Difflib.b2j.
  destruct (Difflib.bpopular s elt); [intros [] |].
  intro H. apply indices_from_in in H. rewrite Nat.sub_0_r in H.
  unfold Difflib.item. repeat split; [lia | tauto].
Qed.

Lemma b2j_own_position (i : nat) :
  i < length s -> Difflib.bpopular s (Difflib.item s i) = false ->
  In i (Difflib.b2j s (Difflib.item s i)).
Proof.
  intros Hi Hp. unfold Difflib.b2j. rewrite Hp.
  apply indices_from_in. rewrite Nat.sub_0_r. split; [lia | reflexivity].
Qed.

Lemma b2j_sorted (elt : ascii) : StronglySorted lt (Difflib.b2j s elt).
Proof.
  unfold Difflib.b2j.
  destruct (Difflib.bpopular s elt); [constructor | apply indices_from_sorted].
Qed.

Lemma clean_run_step (j : nat) :
  Difflib.bpopular s (Difflib.item s j) = false ->
  clean_run s j = S (prev_clean_run s j).
Proof.
  intro H. destruct j; cbn [clean_run prev_clean_run]; now rewrite H.
Qed.

Lemma clean_run_popular (j : nat) :
  Difflib.bpopular s (Difflib.item s j) = true -> clean_run s j = 0.
Proof.
  intro H. destruct j; cbn [clean_run]; now rewrite H.
Qed.

(** One row of the scan, when both sequences are [s] and the region is the
    whole of it: the best match stays on the diagonal. *)
Lemma scan_row_diagonal (i : nat) (old : Difflib.j2len_t) (js : list nat) :
  (forall j, In j js ->
             j < length s /\ Difflib.item s j = Difflib.item s i /\
             Difflib.bpopular s (Difflib.item s i) = false) ->
  StronglySorted lt js ->
  (forall j, old j <= clean_run s j) ->
  (forall j, old j <= prev_clean_run s i) ->
  Difflib.j2lenget_pred old i = prev_clean_run s i ->
  forall (new : Difflib.j2len_t) (besti bestj bestsize : nat),
    (forall j, new j <= clean_run s j /\ new j <= clean_run s i) ->
    besti = bestj ->
    (forall i', i' < i -> clean_run s i' <= bestsize) ->
    (In i js \/ (clean_run s i <= bestsize /\ new i = clean_run s i)) ->
    exists new' d size',
      Difflib.scan_row 0 (length s) i old js new (besti, bestj, bestsize)
      = (new', (d, d, size')) /\
      (forall j, new' j <= clean_run s j /\ new' j <= clean_run s i) /\
      (forall i', i' < i -> clean_run s i' <= size') /\
      clean_run s i <= size' /\ new' i = clean_run s i.
Proof.
  intros Hjs Hsorted O1 O2 O3.
  induction js as [| j js IH]; intros new besti bestj bestsize R1 R2 R3 R4;
    cbn [Difflib.scan_row].
  - destruct R4 as [[] | [R4 R5]]. subst bestj.
    exists new, besti, bestsize. repeat split; auto; apply R1.
  - destruct (Hjs j (or_introl eq_refl)) as (Hj & Hitem & Hpop).
    inversion Hsorted as [| j0 js0 Hsorted' Hall]; subst j0 js0.
    rewrite Forall_forall in Hall.
    assert (Hjs' : forall x, In x js ->
               x < length s /\ Difflib.item s x = Difflib.item s i /\
               Difflib.bpopular s (Difflib.item s i) = false)
      by (intros x Hx; apply Hjs; now right).
    specialize (IH Hjs' Hsorted').
    change (j <? 0) with false. cbn iota.
    destruct (Nat.leb_spec (length s) j) as [Hge | _]; [lia |].
    set (k := Difflib.j2lenget_pred old j + 1).
    assert (Hki : k <= clean_run s i).
    { rewrite (clean_run_step i Hpop). unfold k.
      destruct j as [| j']; cbn [Difflib.j2lenget_pred]; [lia |].
      specialize (O2 j'). lia. }
    assert (Hkj : k <= clean_run s j).
    { rewrite (clean_run_step j) by (now rewrite Hitem). unfold k.
      destruct j as [| j']; cbn [Difflib.j2lenget_pred prev_clean_run]; [lia |].
      specialize (O1 j'). lia. }
    assert (Hnew' : forall x, Difflib.j2len_set new j k x <= clean_run s x /\
                              Difflib.j2len_set new j k x <= clean_run s i).
    { intro x. unfold Difflib.j2len_set.
      destruct (Nat.eqb_spec x j) as [-> | _]; [split; assumption | apply R1]. }
    cbn [Difflib.size snd].
    destruct (Nat.lt_trichotomy j i) as [Hlt | [Heq | Hgt]].
    + (* left of the diagonal: an earlier row had a run as long *)
      assert (Hsz : k <= bestsize) by (specialize (R3 j Hlt); lia).
      destruct (Nat.ltb_spec bestsize k) as [Hc | _]; [lia |].
      apply IH; auto.
      destruct R4 as [[Hij | Hin] | [R4 R5]]; [lia | now left |].
      right. split; [exact R4 |]. unfold Difflib.j2len_set.
      destruct (Nat.eqb_spec i j) as [Hij | _]; [lia | exact R5].
    + (* on the diagonal *)
      subst j.
      assert (Hk : k = clean_run s i).
      { rewrite (clean_run_step i Hpop). unfold k. rewrite O3. lia. }
      assert (Hset : Difflib.j2len_set new i k i = clean_run s i).
      { unfold Difflib.j2len_set. now rewrite Nat.eqb_refl. }
      destruct (Nat.ltb_spec bestsize k) as [Hc | Hc].
      * apply IH; auto.
        -- intros i' Hi'. specialize (R3 i' Hi'). lia.
        -- right. split; [lia | exact Hset].
      * apply IH; auto.
        right. split; [lia | exact Hset].
    + (* right of the diagonal: this row has passed the diagonal *)
      destruct R4 as [[Hij | Hin] | [R4 R5]];
        [lia | specialize (Hall i Hin); lia |].
      destruct (Nat.ltb_spec bestsize k) as [Hc | _]; [lia |].
      apply IH; auto.
      right. split; [exact R4 |]. unfold Difflib.j2len_set.
      destruct (Nat.eqb_spec i j) as [Hij | _]; [lia | exact R5].
Qed.

Lemma scan_rows_prefix_diagonal (m : nat) :
  m <= length s ->
  exists row d size',
    fold_left
      (fun st i => Difflib.scan_row 0 (length s) i (fst st)
                     (Difflib.b2j s (Difflib.item s i))
                     Difflib.j2len_empty (snd st))
      (seq 0 m) (Difflib.j2len_empty, (0, 0, 0))
    = (row, (d, d, size')) /\
    (forall j, row j <= clean_run s j) /\
    (forall j, row j <= prev_clean_run s m) /\
    Difflib.j2lenget_pred row m = prev_clean_run s m /\
    (forall i', i' < m -> clean_run s i' <= size').
Proof.
  induction m as [| m IH]; intro Hm.
  - exists Difflib.j2len_empty, 0, 0. cbn [seq fold_left].
    unfold Difflib.j2len_empty. cbn [Difflib.j2lenget_pred prev_clean_run].
    repeat split; intros; lia.
  - destruct IH as (row & d & sz & E & O1 & O2 & O3 & R3); [lia |].
    rewrite seq_S, fold_left_app, E. cbn [fold_left fst snd Nat.add].
    destruct (scan_row_diagonal m row (Difflib.b2j s (Difflib.item s m)))
      with (new := Difflib.j2len_empty) (besti := d) (bestj := d) (bestsize := sz)
      as (new' & d' & sz' & E' & R1' & R3' & R4' & R5'); auto.
    + intros j Hj. apply b2j_in in Hj. tauto.
    + apply b2j_sorted.
    + intro j. unfold Difflib.j2len_empty. lia.
    + destruct (Difflib.bpopular s (Difflib.item s m)) eqn:Hp.
      * right. rewrite (clean_run_popular m Hp).
        unfold Difflib.j2len_empty. lia.
      * left. apply b2j_own_position; [lia | exact Hp].
    + exists new', d', sz'. split; [exact E' |].
      cbn [Difflib.j2lenget_pred prev_clean_run].
      repeat split.
      * intro j. apply R1'.
      * intro j. apply R1'.
      * exact R5'.
      * intros i' Hi'. destruct (Nat.eq_dec i' m) as [-> | Hne];
          [exact R4' | apply R3'; lia].
Qed.

Lemma scan_rows_diagonal :
  exists d size',
    snd (Difflib.scan_rows s s 0 (length s) 0 (length s)) = (d, d, size').
Proof.
  unfold Difflib.scan_rows. rewrite Nat.sub_0_r.
  destruct (scan_rows_prefix_diagonal (length s) (le_n _))
    as (row & d & sz & E & _).
  rewrite E. now exists d, sz.
Qed.

Lemma extend_left_diagonal (d : nat) :
  forall size', Difflib.extend_left s s 0 0 d d size' = (0, 0, size' + d).
Proof.
  induction d as [| d IH]; intro size'; cbn [Difflib.extend_left].
  - now rewrite Nat.add_0_r.
  - change (0 <? S d) with true. cbn [andb].
    rewrite Ascii.eqb_refl, IH. f_equal. lia.
Qed.

Lemma extend_right_diagonal (n : nat) :
  forall size',
    n = length s - size' -> size' <= length s ->
    Difflib.extend_right s s (length s) (length s) n 0 0 size' = (0, 0, length s).
Proof.
  induction n as [| n IH]; intros size' Hn Hle; cbn [Difflib.extend_right].
  - f_equal. lia.
  - cbn [Nat.add].
    destruct (Nat.ltb_spec size' (length s)) as [_ | H]; [| lia].
    cbn [andb]. rewrite Ascii.eqb_refl.
    apply IH; lia.
Qed.

(** [find_longest_match] of a sequence against itself, over the whole of
    it, is the whole sequence. *)
Lemma find_longest_match_self :
  Difflib.find_longest_match s s 0 (length s) 0 (length s) = (0, 0, length s).
Proof.
  unfold Difflib.find_longest_match.
  pose proof (scan_rows_bounds s s 0 (length s) 0 (length s)
                (Nat.le_0_l _) (Nat.le_0_l _)) as Hin.
  destruct scan_rows_diagonal as (d & sz & E).
  rewrite E in Hin |- *. unfold inside in Hin.
  rewrite extend_left_diagonal. cbn [Nat.add].
  apply extend_right_diagonal; lia.
Qed.

Lemma found_blocks_self :
  total_size (Difflib.found_blocks s s) = length s.
Proof.
  unfold Difflib.found_blocks.
  replace (2 * length s + 1) with (S (2 * length s)) by lia.
  cbn [Difflib.blocks_loop].
  rewrite find_longest_match_self.
  destruct (Nat.eqb_spec (length s) 0) as [E | _].
  - destruct (2 * length s); cbn [Difflib.blocks_loop]; now rewrite E.
  - rewrite Nat.ltb_irrefl. cbn [andb Nat.add].
    rewrite Nat.ltb_irrefl.
    destruct (2 * length s); cbn [Difflib.blocks_loop app andb];
      rewrite total_size_cons; cbn [Difflib.size snd];
      change (total_size []) with 0; lia.
Qed.

End SelfMatch.

Lemma ratio_self (s : str) : (Difflib.ratio s s == 1)%Q.
Proof.
  unfold Difflib.ratio, Difflib._calculate_ratio.
  fold (total_size (Difflib.get_matching_blocks s s)).
  rewrite total_size_get_matching_blocks, found_blocks_self.
  destruct (Nat.eqb_spec (length s + length s) 0) as [_ | Hn].
  - reflexivity.
  - unfold Qeq. cbn [Qnum Qden]. rewrite Zpos_of_nat by exact Hn. lia.
Qed.

(** ** The ratio is at most 1, and below 1 for two lengths that differ *)

Lemma ratio_le_1 (a b : str) : (Difflib.ratio a b <= 1)%Q.
Proof.
  unfold Difflib.ratio, Difflib._calculate_ratio.
  fold (total_size (Difflib.get_matching_blocks a b)).
  rewrite total_size_get_matching_blocks.
  pose proof (found_blocks_size a b) as H.
  destruct (Nat.eqb_spec (length a + length b) 0) as [_ | Hn].
  - apply Qle_refl.
  - unfold Qle. cbn [Qnum Qden]. rewrite Zpos_of_nat by exact Hn. lia.
Qed.

Lemma ratio_lt_1 (a b : str) :
  length a <> length b -> (Difflib.ratio a b < 1)%Q.
Proof.
  intro Hne.
  unfold Difflib.ratio, Difflib._calculate_ratio.
  fold (total_size (Difflib.get_matching_blocks a b)).
  rewrite total_size_get_matching_blocks.
  pose proof (found_blocks_size a b) as H.
  destruct (Nat.eqb_spec (length a + length b) 0) as [E | Hn].
  - lia.
  - unfold Qlt. cbn [Qnum Qden]. rewrite Zpos_of_nat by exact Hn. lia.
Qed.

(** ** The search loop of [process_seq2seq_sbd] *)

Section SearchLoop.

Variables input_text guess : str.

(** The ratio that the loop body computes at index [i]. *)
Let r (i : nat) : Q := Difflib.ratio (firstn i input_text) guess.

Let run (n : nat) : search_state :=
  fold_left (search_step input_text guess) (seq 0 n) search_init.

Lemma run_S (n : nat) : run (S n) = search_step input_text guess (run n) n.
Proof.
  unfold run. rewrite seq_S, fold_left_app. reflexivity.
Qed.

Lemma search_step_computed (st : search_state) (i : nat) :
  computed (search_step input_text guess st i) = computed st ++ [(i, r i)].
Proof.
  unfold search_step.
  destruct (is_none (best_index st) || Qgtb _ (best_ratio st)); reflexivity.
Qed.

(** The running best is replaced on a strictly greater ratio only. *)
Lemma search_step_best (st : search_state) (i i0 : nat) :
  best_index st = Some i0 ->
  best_index (search_step input_text guess st i)
  = if Qle_bool (r i) (best_ratio st) then Some i0 else Some i.
Proof.
  intro H. unfold search_step, Qgtb. rewrite H. cbn [is_none orb]. fold (r i).
  destruct (Qle_bool (r i) (best_ratio st)); reflexivity.
Qed.

(** Every index of [range(n)] is tried, in order, and no other. *)
Lemma run_computed (n : nat) :
  computed (run n) = map (fun i => (i, r i)) (seq 0 n).
Proof.
  induction n as [| n IH].
  - reflexivity.
  - rewrite run_S, search_step_computed, IH, seq_S, map_app. reflexivity.
Qed.

Lemma run_0 : best_index (run 0) = None.
Proof. reflexivity. Qed.

(** After at least one turn, [best_index] is the first index of the
    largest ratio seen. *)
Lemma run_best (n : nat) :
  exists i,
    best_index (run (S n)) = Some i /\ best_ratio (run (S n)) = r i /\
    i < S n /\
    (forall j, j < S n -> (r j <= r i)%Q) /\
    (forall j, j < i -> (r j < r i)%Q).
Proof.
  induction n as [| n IH].
  - exists 0. rewrite run_S. cbn.
    repeat split; try lia.
    intros j Hj. replace j with 0 by lia. apply Qle_refl.
  - destruct IH as (i & Hi & Hr & Hlt & Hmax & Hfirst).
    rewrite (run_S (S n)).
    unfold search_step. rewrite Hi, Hr. cbn [is_none orb].
    fold (r (S n)). unfold Qgtb.
    destruct (Qle_bool (r (S n)) (r i)) eqn:E; cbn [negb].
    + apply Qle_bool_iff in E.
      exists i. cbn. repeat split; auto.
      intros j Hj. destruct (Nat.eq_dec j (S n)) as [-> | Hne]; auto.
      apply Hmax. lia.
    + assert (Hgt : (r i < r (S n))%Q).
      { apply Qnot_le_lt. intro H. apply Qle_bool_iff in H. congruence. }
      exists (S n). cbn. repeat split; auto.
      * intros j Hj. destruct (Nat.eq_dec j (S n)) as [-> | Hne].
        -- apply Qle_refl.
        -- apply Qlt_le_weak, Qle_lt_trans with (r i); auto.
           apply Hmax. lia.
      * intros j Hj. apply Qle_lt_trans with (r i); auto.
Qed.

End SearchLoop.

Lemma nonempty_length (s : str) : s <> [] -> exists n, length s = S n.
Proof.
  destruct s as [| c t]; [contradiction | intros _; now exists (length t)].
Qed.

Lemma process_seq2seq_sbd_run_found (input_text sbd_translated_guess : str) :
  find sbd_translated_guess SENTENCE_BOUNDARY_TOKEN <> (-1)%Z ->
  let guess := slice_to sbd_translated_guess
                        (find sbd_translated_guess SENTENCE_BOUNDARY_TOKEN) in
  let st := fold_left (search_step input_text guess)
                      (seq 0 (length input_text)) search_init in
  process_seq2seq_sbd_run input_text sbd_translated_guess =
    (option_map Z.of_nat (best_index st), computed st).
Proof.
  intros H. unfold process_seq2seq_sbd_run.
  destruct (Z.eqb_spec (find sbd_translated_guess SENTENCE_BOUNDARY_TOKEN) (-1)) as [E | _];
    [contradiction | reflexivity].
Qed.

(** What the loop [for i in range(len(input_text))] does: when the guess
    contains the marker, the ratio between [input_text[:i]] and the
    translated guess is computed for exactly the indices [0 <= i < len], in
    increasing order. *)
Theorem search_tries_range_len (input_text sbd_translated_guess : str) :
  find sbd_translated_guess SENTENCE_BOUNDARY_TOKEN <> (-1)%Z ->
  let guess := slice_to sbd_translated_guess
                        (find sbd_translated_guess SENTENCE_BOUNDARY_TOKEN) in
  snd (process_seq2seq_sbd_run input_text sbd_translated_guess) =
    map (fun i => (i, Difflib.ratio (firstn i input_text) guess))
        (seq 0 (length input_text))
  /\ (forall i, In i (map fst (snd (process_seq2seq_sbd_run input_text sbd_translated_guess)))
                <-> i < length input_text).
Proof.
  intros H guess.
  rewrite (process_seq2seq_sbd_run_found input_text sbd_translated_guess H). cbn [snd].
  fold guess. rewrite run_computed. split; [reflexivity |].
  intro i. rewrite map_map. cbn [fst]. rewrite map_id, in_seq. lia.
Qed.

Lemma search_tries_range_len_witness :
  find (lit "ab<sentence-boundary>") SENTENCE_BOUNDARY_TOKEN <> (-1)%Z /\
  snd (process_seq2seq_sbd_run (lit "ab") (lit "ab<sentence-boundary>")) =
    map (fun i => (i, Difflib.ratio (firstn i (lit "ab")) (lit "ab"))) (seq 0 2).
Proof.
  assert (H : find (lit "ab<sentence-boundary>") SENTENCE_BOUNDARY_TOKEN <> (-1)%Z)
    by (vm_compute; discriminate).
  split; [exact H |].
  exact (proj1 (search_tries_range_len (lit "ab") (lit "ab<sentence-boundary>") H)).
Defined.

(** C2: on the text "ab" with the guess "ab<sentence-boundary>", which
    contains the marker, the indices for which a ratio is computed are 0 and
    1: [range(len(input_text))] stops before [2 = len("ab")], so the full
    text is not among the candidate prefixes. *)
Theorem search_skips_full_text :
  length (lit "ab") = 2 /\
  find (lit "ab<sentence-boundary>") SENTENCE_BOUNDARY_TOKEN <> (-1)%Z /\
  map fst (snd (process_seq2seq_sbd_run
                  (lit "ab") (lit "ab<sentence-boundary>"))) = [0; 1] /\
  ~ In 2 (map fst (snd (process_seq2seq_sbd_run
                          (lit "ab") (lit "ab<sentence-boundary>")))).
Proof.
  split; [reflexivity |]. split; [vm_compute; discriminate |].
  split; [vm_compute; reflexivity |].
  vm_compute. intros [H | [H | []]]; discriminate.
Qed.

(** C6: for a non-empty text and a guess in which the marker does not occur,
    [process_seq2seq_sbd] returns -1 and no ratio is computed. *)
Theorem process_seq2seq_sbd_no_marker (input_text sbd_translated_guess : str) :
  input_text <> [] ->
  find sbd_translated_guess SENTENCE_BOUNDARY_TOKEN = (-1)%Z ->
  process_seq2seq_sbd input_text sbd_translated_guess = Some (-1)%Z /\
  snd (process_seq2seq_sbd_run input_text sbd_translated_guess) = [].
Proof.
  intros _ H.
  unfold process_seq2seq_sbd, process_seq2seq_sbd_run.
  rewrite H. split; reflexivity.
Qed.

Lemma process_seq2seq_sbd_no_marker_witness :
  process_seq2seq_sbd (lit "Hello there. Bye.") (lit "Hello there.") = Some (-1)%Z /\
  snd (process_seq2seq_sbd_run (lit "Hello there. Bye.") (lit "Hello there.")) = [].
Proof.
  apply process_seq2seq_sbd_no_marker; [discriminate | reflexivity].
Defined.

(** C9: when the guess contains the marker and the text is not empty, the
    index returned has the largest ratio of all the indices tried, and every
    index tried whose ratio equals it is at least as large: of the indices
    that tie for the maximum, the smallest is returned. *)
Theorem process_seq2seq_sbd_first_maximum (input_text sbd_translated_guess : str) :
  input_text <> [] ->
  find sbd_translated_guess SENTENCE_BOUNDARY_TOKEN <> (-1)%Z ->
  let guess := slice_to sbd_translated_guess
                        (find sbd_translated_guess SENTENCE_BOUNDARY_TOKEN) in
  let r := fun i => Difflib.ratio (firstn i input_text) guess in
  exists i,
    process_seq2seq_sbd input_text sbd_translated_guess = Some (Z.of_nat i) /\
    i < length input_text /\
    (forall j, j < length input_text -> (r j <= r i)%Q) /\
    (forall j, j < length input_text -> (r j == r i)%Q -> i <= j).
Proof.
  intros Hne H guess r.
  unfold process_seq2seq_sbd.
  rewrite (process_seq2seq_sbd_run_found input_text sbd_translated_guess H). cbn [fst]. fold guess.
  destruct (nonempty_length input_text Hne) as [n Hlen].
  rewrite Hlen.
  destruct (run_best input_text guess n) as (i & Hi & _ & Hlt & Hmax & Hfirst).
  exists i. rewrite Hi.
  split; [reflexivity |]. split; [exact Hlt |]. split; [exact Hmax |].
  intros j Hj Heq.
  destruct (Nat.le_gt_cases i j) as [Hle | Hgt]; [exact Hle |].
  exfalso. exact (Qlt_not_eq _ _ (Hfirst j Hgt) Heq).
Qed.

Lemma process_seq2seq_sbd_first_maximum_witness :
  exists i,
    process_seq2seq_sbd (lit "xyz") (lit "q<sentence-boundary>") = Some (Z.of_nat i) /\
    i < 3 /\
    (forall j, j < 3 ->
       (Difflib.ratio (firstn j (lit "xyz")) (lit "q")
        <= Difflib.ratio (firstn i (lit "xyz")) (lit "q"))%Q) /\
    (forall j, j < 3 ->
       (Difflib.ratio (firstn j (lit "xyz")) (lit "q")
        == Difflib.ratio (firstn i (lit "xyz")) (lit "q"))%Q -> i <= j).
Proof.
  apply (@process_seq2seq_sbd_first_maximum (lit "xyz") (lit "q<sentence-boundary>"));
    [discriminate | vm_compute; discriminate].
Defined.

(** C10: for a non-empty text and a guess that contains the marker, the
    value returned is an index strictly below [len(input_text)]. *)
Theorem process_seq2seq_sbd_below_len (input_text sbd_translated_guess : str) :
  input_text <> [] ->
  find sbd_translated_guess SENTENCE_BOUNDARY_TOKEN <> (-1)%Z ->
  exists z,
    process_seq2seq_sbd input_text sbd_translated_guess = Some z /\
    (0 <= z < Z.of_nat (length input_text))%Z.
Proof.
  intros Hne H.
  unfold process_seq2seq_sbd.
  rewrite (process_seq2seq_sbd_run_found input_text sbd_translated_guess H). cbn [fst].
  destruct (nonempty_length input_text Hne) as [n Hlen].
  rewrite Hlen.
  destruct (run_best input_text
              (slice_to sbd_translated_guess
                 (find sbd_translated_guess SENTENCE_BOUNDARY_TOKEN))
              n) as (i & Hi & _ & Hlt & _).
  exists (Z.of_nat i). rewrite Hi. split; [reflexivity | lia].
Qed.

Lemma process_seq2seq_sbd_below_len_witness :
  exists z,
    process_seq2seq_sbd (lit "Hi. Yo.") (lit "Hi.<sentence-boundary>") = Some z /\
    (0 <= z < 7)%Z.
Proof.
  apply (@process_seq2seq_sbd_below_len (lit "Hi. Yo.") (lit "Hi.<sentence-boundary>"));
    [discriminate | vm_compute; discriminate].
Defined.

(** Whatever the text, an integer returned on a guess with the marker is an
    index below the length of the text. *)
Lemma process_seq2seq_sbd_int_in_range (input_text sbd_translated_guess : str) (z : Z) :
  find sbd_translated_guess SENTENCE_BOUNDARY_TOKEN <> (-1)%Z ->
  process_seq2seq_sbd input_text sbd_translated_guess = Some z ->
  (0 <= z < Z.of_nat (length input_text))%Z.
Proof.
  intros H Hz. unfold process_seq2seq_sbd in Hz.
  rewrite (process_seq2seq_sbd_run_found input_text sbd_translated_guess H) in Hz.
  cbn [fst] in Hz.
  destruct (length input_text) as [| n] eqn:Hlen.
  - cbn in Hz. discriminate.
  - destruct (run_best input_text
                (slice_to sbd_translated_guess
                   (find sbd_translated_guess SENTENCE_BOUNDARY_TOKEN))
                n) as (i & Hi & _ & Hlt & _).
    rewrite Hi in Hz. cbn in Hz. injection Hz as <-. lia.
Qed.

(** C3: on the empty text with a guess that contains the marker the loop
    body never runs and the initial [best_index], Python's [None], is
    returned instead of -1. *)
Theorem process_seq2seq_sbd_empty_text_None :
  find (lit "<sentence-boundary>") SENTENCE_BOUNDARY_TOKEN <> (-1)%Z /\
  process_seq2seq_sbd (lit "") (lit "<sentence-boundary>") = None.
Proof.
  split; [vm_compute; discriminate | reflexivity].
Qed.

(** C5: on the empty text with the guess "Hi.<sentence-boundary> Yo." the
    value returned is not -1 and is not an integer between 0 and
    [len(input_text)] either. *)
Theorem process_seq2seq_sbd_empty_text_not_index :
  find (lit "Hi.<sentence-boundary> Yo.") SENTENCE_BOUNDARY_TOKEN <> (-1)%Z /\
  process_seq2seq_sbd (lit "") (lit "Hi.<sentence-boundary> Yo.") <> Some (-1)%Z /\
  ~ (exists z : Z,
       process_seq2seq_sbd (lit "") (lit "Hi.<sentence-boundary> Yo.") = Some z /\
       (0 <= z <= Z.of_nat (length (lit "")))%Z).
Proof.
  split; [vm_compute; discriminate |].
  split; [vm_compute; discriminate |].
  intros [z [H _]]. vm_compute in H. discriminate.
Qed.

(** C1 (as amended): in the end-to-end example [detect_sentence] returns 27,
    the length of "I walked down to the river.", the offset right after that
    sentence in the text. *)
Theorem detect_sentence_river :
  detect_sentence river_text river_stub default_sentence_guess_length = Some 27%Z /\
  firstn 27 river_text = lit "I walked down to the river.".
Proof.
  split; vm_compute; reflexivity.
Qed.

(** C1 (as stated) fails: the result of the example is not 28. *)
Lemma detect_sentence_river_not_28 :
  detect_sentence river_text river_stub default_sentence_guess_length <> Some 28%Z.
Proof.
  vm_compute. discriminate.
Qed.

(** ** Identity alignment *)

(** The first occurrence of a token in [u ++ token ++ rest] when [u] does not
    contain it, for a token whose first character does not occur again in
    it. *)

Lemma startswith_app (p rest : str) : startswith p (p ++ rest) = true.
Proof.
  induction p as [| c p IH]; cbn [startswith app]; [reflexivity |].
  now rewrite Ascii.eqb_refl, IH.
Qed.

Lemma startswith_stops_before (h : ascii) (p : str) :
  ~ In h p ->
  forall v q, startswith p (v ++ h :: q) = true -> startswith p v = true.
Proof.
  induction p as [| c p IH]; intros Hh v q H; [reflexivity |].
  destruct v as [| d v]; cbn [startswith app] in H |- *.
  - apply andb_prop in H. destruct H as [H _].
    apply Ascii.eqb_eq in H. subst c. exfalso. apply Hh. now left.
  - apply andb_prop in H. destruct H as [H1 H2].
    rewrite H1. cbn [andb]. apply IH with q; [| exact H2].
    intro Hin. apply Hh. now right.
Qed.

Lemma find_from_nonneg (sub s : str) :
  forall pos, find_from sub s pos = (-1)%Z \/ (0 <= find_from sub s pos)%Z.
Proof.
  induction s as [| c s IH]; intro pos; cbn [find_from].
  - destruct (startswith sub []); [right; lia | now left].
  - destruct (startswith sub (c :: s)); [right; lia | apply IH].
Qed.

Lemma find_from_app_token (h : ascii) (tok' : str) (rest : str) :
  ~ In h tok' ->
  forall u pos,
    find_from (h :: tok') u pos = (-1)%Z ->
    find_from (h :: tok') (u ++ (h :: tok') ++ rest) pos = Z.of_nat (pos + length u).
Proof.
  intros Hh. induction u as [| c u IH]; intros pos H.
  - rewrite app_nil_l, Nat.add_0_r.
    pose proof (startswith_app (h :: tok') rest) as E.
    destruct ((h :: tok') ++ rest) eqn:F; [discriminate F |].
    cbn [find_from]. now rewrite E.
  - cbn [find_from] in H.
    destruct (startswith (h :: tok') (c :: u)) eqn:E; [lia |].
    cbn [app length find_from].
    destruct (startswith (h :: tok') (c :: u ++ h :: tok' ++ rest)) eqn:F.
    + exfalso.
      cbn [startswith] in E, F. apply andb_prop in F. destruct F as [F1 F2].
      rewrite F1 in E. cbn [andb] in E.
      rewrite (startswith_stops_before h tok' ltac:(assumption) u (tok' ++ rest) F2) in E.
      discriminate.
    + rewrite IH by exact H. lia.
Qed.

Lemma find_app_sentence_boundary (u rest : str) :
  find u SENTENCE_BOUNDARY_TOKEN = (-1)%Z ->
  find (u ++ SENTENCE_BOUNDARY_TOKEN ++ rest) SENTENCE_BOUNDARY_TOKEN
  = Z.of_nat (length u).
Proof.
  unfold find.
  change SENTENCE_BOUNDARY_TOKEN with ("<"%char :: lit "sentence-boundary>").
  intro H. apply find_from_app_token with (rest := rest) in H.
  - exact H.
  - cbn. intuition discriminate.
Qed.

Lemma search_identity (input_text : str) (k n : nat) :
  length input_text = S n -> k <= n ->
  best_index (fold_left (search_step input_text (firstn k input_text))
                        (seq 0 (S n)) search_init) = Some k.
Proof.
  intros Hlen Hk.
  destruct (run_best input_text (firstn k input_text) n)
    as (i & Hi & _ & Hlt & Hmax & Hfirst).
  rewrite Hi. f_equal.
  pose proof (ratio_self (firstn k input_text)) as Hone.
  pose proof (ratio_le_1 (firstn i input_text) (firstn k input_text)) as Hle.
  destruct (Nat.lt_trichotomy i k) as [Hik | [Hik | Hik]]; [| exact Hik |].
  - exfalso.
    assert (Hlt1 : (Difflib.ratio (firstn i input_text) (firstn k input_text) < 1)%Q).
    { apply ratio_lt_1. rewrite !length_firstn. lia. }
    specialize (Hmax k ltac:(lia)). rewrite Hone in Hmax.
    exact (Qlt_not_le _ _ Hlt1 Hmax).
  - exfalso.
    specialize (Hfirst k Hik). rewrite Hone in Hfirst.
    exact (Qlt_not_le _ _ Hfirst Hle).
Qed.

(** Identity alignment below the length of the text: for every text [T],
    every [k] with [0 <= k < len(T)] and every guess made of [T[:k]], the
    marker, and any text after it, where [T[:k]] does not itself contain the
    marker (so that the translated guess is [T[:k]] exactly),
    [process_seq2seq_sbd] returns [k]. *)
Theorem process_seq2seq_sbd_identity (input_text : str) (k : nat) (rest : str) :
  k < length input_text ->
  find (firstn k input_text) SENTENCE_BOUNDARY_TOKEN = (-1)%Z ->
  process_seq2seq_sbd input_text
    (firstn k input_text ++ SENTENCE_BOUNDARY_TOKEN ++ rest) = Some (Z.of_nat k).
Proof.
  intros Hk Hfree.
  pose proof (find_app_sentence_boundary (firstn k input_text) rest Hfree) as Hfind.
  rewrite length_firstn, Nat.min_l in Hfind by lia.
  unfold process_seq2seq_sbd.
  rewrite process_seq2seq_sbd_run_found by (rewrite Hfind; lia).
  cbn [fst]. rewrite Hfind, slice_to_of_nat.
  rewrite firstn_app, firstn_firstn, Nat.min_id.
  rewrite length_firstn, Nat.min_l by lia.
  rewrite Nat.sub_diag, firstn_O, app_nil_r.
  destruct (length input_text) as [| n] eqn:Hlen; [lia |].
  rewrite (search_identity input_text k n Hlen) by lia.
  reflexivity.
Qed.

Lemma process_seq2seq_sbd_identity_witness :
  process_seq2seq_sbd (lit "Hi. Yo.") (lit "Hi.<sentence-boundary> Yo") = Some 3%Z.
Proof.
  apply (process_seq2seq_sbd_identity (lit "Hi. Yo.") 3 (lit " Yo"));
    [vm_compute; lia | reflexivity].
Defined.

(** C4: at [k = len(T)] the identity alignment is missed: on the text "ab"
    with the guess "ab<sentence-boundary>", whose translated guess is the
    whole text [T[0:2]], the value returned is 1 and not 2. *)
Theorem process_seq2seq_sbd_identity_fails_at_len :
  firstn 2 (lit "ab") ++ SENTENCE_BOUNDARY_TOKEN = lit "ab<sentence-boundary>" /\
  (0 <= 2 <= length (lit "ab")) /\
  process_seq2seq_sbd (lit "ab") (lit "ab<sentence-boundary>") = Some 1%Z /\
  process_seq2seq_sbd (lit "ab") (lit "ab<sentence-boundary>") <> Some 2%Z.
Proof.
  split; [reflexivity |]. split; [cbn; lia |].
  split; [vm_compute; reflexivity | vm_compute; discriminate].
Qed.

(** * Further properties of the code *)

(** ** [process_seq2seq_sbd]: the three kinds of result *)

(** X1: the sentinel -1 is returned exactly when the guess does not contain the
    marker, whatever the text. *)
Theorem process_seq2seq_sbd_minus_one_iff (input_text sbd_translated_guess : str) :
  process_seq2seq_sbd input_text sbd_translated_guess = Some (-1)%Z <->
  find sbd_translated_guess SENTENCE_BOUNDARY_TOKEN = (-1)%Z.
Proof.
  split.
  - intro H.
    destruct (Z.eq_dec (find sbd_translated_guess SENTENCE_BOUNDARY_TOKEN) (-1))
      as [E | E]; [exact E |].
    pose proof (process_seq2seq_sbd_int_in_range input_text sbd_translated_guess
                  (-1) E H).
    lia.
  - intro H. unfold process_seq2seq_sbd, process_seq2seq_sbd_run.
    rewrite H. reflexivity.
Qed.

(** X2: Python's [None] is returned exactly when the text is empty and the
    guess contains the marker. *)
Theorem process_seq2seq_sbd_None_iff (input_text sbd_translated_guess : str) :
  process_seq2seq_sbd input_text sbd_translated_guess = None <->
  input_text = [] /\ find sbd_translated_guess SENTENCE_BOUNDARY_TOKEN <> (-1)%Z.
Proof.
  split.
  - intro H.
    assert (E : find sbd_translated_guess SENTENCE_BOUNDARY_TOKEN <> (-1)%Z).
    { intro E. unfold process_seq2seq_sbd, process_seq2seq_sbd_run in H.
      rewrite E in H. discriminate. }
    split; [| exact E].
    destruct input_text as [| c t]; [reflexivity |].
    unfold process_seq2seq_sbd in H.
    rewrite (process_seq2seq_sbd_run_found (c :: t) sbd_translated_guess E) in H.
    cbn [fst length] in H.
    destruct (run_best (c :: t)
                (slice_to sbd_translated_guess
                   (find sbd_translated_guess SENTENCE_BOUNDARY_TOKEN))
                (length t)) as (i & Hi & _).
    rewrite Hi in H. discriminate.
  - intros [-> E]. unfold process_seq2seq_sbd.
    rewrite (process_seq2seq_sbd_run_found [] sbd_translated_guess E).
    reflexivity.
Qed.

(** X3: what follows the first marker in the guess does not matter: two guesses
    with the same text before the marker give the same result and the same
    ratios. *)
Theorem process_seq2seq_sbd_ignores_after_marker
        (input_text guess rest1 rest2 : str) :
  find guess SENTENCE_BOUNDARY_TOKEN = (-1)%Z ->
  process_seq2seq_sbd_run input_text (guess ++ SENTENCE_BOUNDARY_TOKEN ++ rest1) =
  process_seq2seq_sbd_run input_text (guess ++ SENTENCE_BOUNDARY_TOKEN ++ rest2).
Proof.
  intro H.
  pose proof (find_app_sentence_boundary guess rest1 H) as F1.
  pose proof (find_app_sentence_boundary guess rest2 H) as F2.
  rewrite !process_seq2seq_sbd_run_found by (rewrite ?F1, ?F2; lia).
  rewrite F1, F2, !slice_to_of_nat.
  rewrite !firstn_app, !Nat.sub_diag, !firstn_O, !firstn_all, !app_nil_r.
  reflexivity.
Qed.

Lemma process_seq2seq_sbd_ignores_after_marker_witness :
  process_seq2seq_sbd_run (lit "Hi. Yo.") (lit "Hi.<sentence-boundary> Yo") =
  process_seq2seq_sbd_run (lit "Hi. Yo.") (lit "Hi.<sentence-boundary>").
Proof.
  apply (process_seq2seq_sbd_ignores_after_marker
           (lit "Hi. Yo.") (lit "Hi.") (lit " Yo") (lit "")).
  reflexivity.
Defined.

(** ** [detect_sentence], end to end *)

(** X6: when the translation of the control token followed by the guess window
    is the first [k] characters of the text, the marker and anything after
    it, with [k < len(input_text)] and no marker inside those [k] characters,
    [detect_sentence] returns [k], whatever the length of the window. *)
Theorem detect_sentence_identity (input_text : str) (sbd_translation : str -> str)
        (sentence_guess_length : Z) (k : nat) (rest : str) :
  k < length input_text ->
  find (firstn k input_text) SENTENCE_BOUNDARY_TOKEN = (-1)%Z ->
  sbd_translation (DETECT_SENTENCE_BOUNDARIES_TOKEN
                   ++ slice_to input_text sentence_guess_length)
  = firstn k input_text ++ SENTENCE_BOUNDARY_TOKEN ++ rest ->
  detect_sentence input_text sbd_translation sentence_guess_length
  = Some (Z.of_nat k).
Proof.
  intros Hk Hfree Htr.
  unfold detect_sentence. rewrite Htr.
  pose proof (find_app_sentence_boundary (firstn k input_text) rest Hfree) as Hfind.
  rewrite length_firstn, Nat.min_l in Hfind by lia.
  unfold process_seq2seq_sbd.
  rewrite process_seq2seq_sbd_run_found by (rewrite Hfind; lia).
  cbn [fst]. rewrite Hfind, slice_to_of_nat.
  rewrite firstn_app, firstn_firstn, Nat.min_id.
  rewrite length_firstn, Nat.min_l by lia.
  rewrite Nat.sub_diag, firstn_O, app_nil_r.
  destruct (length input_text) as [| n] eqn:Hlen; [lia |].
  rewrite (search_identity input_text k n Hlen) by lia.
  reflexivity.
Qed.

Lemma detect_sentence_identity_witness :
  detect_sentence (lit "Hi. Yo.")
                  (fun prompt => firstn 3 (skipn 28 prompt)
                                 ++ SENTENCE_BOUNDARY_TOKEN ++ skipn 31 prompt)
                  5
  = Some 3%Z.
Proof.
  apply (detect_sentence_identity
           (lit "Hi. Yo.")
           (fun prompt => firstn 3 (skipn 28 prompt)
                          ++ SENTENCE_BOUNDARY_TOKEN ++ skipn 31 prompt)
           5 3 (lit " Y"));
    [vm_compute; lia | reflexivity | reflexivity].
Defined.

(** ** The similarity ratio *)

(** X7: the ratio that [sm.ratio()] returns lies between 0 and 1, is 1 for two
    equal sequences and is below 1 for two sequences of different
    lengths. *)
Theorem ratio_range (a b : str) :
  (0 <= Difflib.ratio a b <= 1)%Q /\
  (a = b -> (Difflib.ratio a b == 1)%Q) /\
  (length a <> length b -> (Difflib.ratio a b < 1)%Q).
Proof.
  split; [split |]; [| apply ratio_le_1 | split].
  - unfold Difflib.ratio, Difflib._calculate_ratio.
    destruct (length a + length b =? 0); [discriminate |].
    unfold Qle. cbn [Qnum Qden]. lia.
  - intros <-. apply ratio_self.
  - apply ratio_lt_1.
Qed.

(** ** [get_sbd_package] *)

Section GetSbdPackageFacts.

Variable Package : Type.
Variable pkg_type : Package -> str.

Lemma str_eqb_eq (s t : str) : str_eqb s t = true <-> s = t.
Proof.
  revert t. induction s as [| c s IH]; intros [| d t]; cbn [str_eqb];
    try (split; [discriminate | discriminate]); [tauto |].
  rewrite andb_true_iff, Ascii.eqb_eq, IH.
  split; [intros [-> ->]; reflexivity | intro H; injection H; auto].
Qed.

(** X12: [get_sbd_package] returns the first package of the list whose type is
    "sbd": the list splits into packages of other types, the package
    returned, and the rest; it returns [None] exactly when no package of the
    list has the type "sbd". *)
Theorem get_sbd_package_first (packages : list Package) :
  match get_sbd_package pkg_type packages with
  | Some pkg =>
      pkg_type pkg = lit "sbd" /\
      exists before after,
        packages = before ++ pkg :: after /\
        forall p, In p before -> pkg_type p <> lit "sbd"
  | None => forall p, In p packages -> pkg_type p <> lit "sbd"
  end.
Proof.
  induction packages as [| pkg packages IH]; cbn [get_sbd_package].
  - intros p [].
  - destruct (str_eqb (pkg_type pkg) (lit "sbd")) eqn:E.
    + apply str_eqb_eq in E. split; [exact E |].
      exists [], packages. split; [reflexivity | intros p []].
    + assert (Hne : pkg_type pkg <> lit "sbd").
      { intro H. apply str_eqb_eq in H. congruence. }
      destruct (get_sbd_package pkg_type packages) as [found |].
      * destruct IH as (Ht & before & after & -> & Hb).
        split; [exact Ht |].
        exists (pkg :: before), after. split; [reflexivity |].
        intros p [<- | Hp]; [exact Hne | now apply Hb].
      * intros p [<- | Hp]; [exact Hne | now apply IH].
Qed.

End GetSbdPackageFacts.

(** ** Two sequences without a common item *)

Lemma indices_from_absent (elt : ascii) (s : str) :
  ~ In elt s -> forall pos, Difflib.indices_from elt s pos = [].
Proof.
  induction s as [| c s IH]; intros Hn pos; cbn [Difflib.indices_from];
    [reflexivity |].
  destruct (Ascii.eqb_spec c elt) as [E | _].
  - exfalso. apply Hn. now left.
  - apply IH. intro H. apply Hn. now right.
Qed.

Lemma In_firstn (i : nat) (s : str) (c : ascii) : In c (firstn i s) -> In c s.
Proof.
  intro H. rewrite <- (firstn_skipn i s). apply in_or_app. now left.
Qed.

Section DisjointSequences.

Variables a b : str.
Hypothesis Hdisjoint : forall c, In c a -> ~ In c b.

Lemma b2j_disjoint (i : nat) :
  i < length a -> Difflib.b2j b (Difflib.item a i) = [].
Proof.
  intro Hi. unfold Difflib.b2j.
  destruct (Difflib.bpopular b (Difflib.item a i)); [reflexivity |].
  apply indices_from_absent, Hdisjoint.
  unfold Difflib.item. now apply nth_In.
Qed.

Lemma scan_rows_from_disjoint (n : nat) :
  forall (start : nat) (st : Difflib.j2len_t * Difflib.Match) (blo bhi : nat),
    start + n <= length a ->
    snd (fold_left
           (fun st i => Difflib.scan_row blo bhi i (fst st)
                          (Difflib.b2j b (Difflib.item a i))
                          Difflib.j2len_empty (snd st))
           (seq start n) st)
    = snd st.
Proof.
  induction n as [| n IH]; intros start st blo bhi Hn; cbn [seq fold_left].
  - reflexivity.
  - rewrite IH by lia. rewrite b2j_disjoint by lia. reflexivity.
Qed.

Lemma find_longest_match_disjoint :
  Difflib.find_longest_match a b 0 (length a) 0 (length b) = (0, 0, 0).
Proof.
  unfold Difflib.find_longest_match, Difflib.scan_rows.
  rewrite scan_rows_from_disjoint by lia.
  cbn [snd Difflib.extend_left Nat.add].
  destruct (length a - 0) as [| n] eqn:En; cbn [Difflib.extend_right];
    [reflexivity |].
  destruct a as [| c a']; [cbn in En; discriminate |].
  destruct b as [| d b']; cbn [length Nat.add].
  - change (0 <? S (length a')) with true. change (0 <? 0) with false.
    reflexivity.
  - change (0 <? S (length a')) with true.
    change (0 <? S (length b')) with true.
    cbn [andb Difflib.item nth Nat.add].
    destruct (Ascii.eqb_spec c d) as [E | _]; [| reflexivity].
    exfalso. apply (Hdisjoint c); [now left | subst d; now left].
Qed.

Lemma found_blocks_disjoint : Difflib.found_blocks a b = [].
Proof.
  unfold Difflib.found_blocks.
  replace (2 * length a + 1) with (S (2 * length a)) by lia.
  cbn [Difflib.blocks_loop].
  rewrite find_longest_match_disjoint. cbn [Nat.eqb].
  destruct (2 * length a); reflexivity.
Qed.

Lemma ratio_disjoint : length a + length b <> 0 -> (Difflib.ratio a b == 0)%Q.
Proof.
  intro Hn.
  unfold Difflib.ratio, Difflib._calculate_ratio.
  fold (total_size (Difflib.get_matching_blocks a b)).
  rewrite total_size_get_matching_blocks, found_blocks_disjoint.
  destruct (Nat.eqb_spec (length a + length b) 0) as [E | _]; [contradiction |].
  reflexivity.
Qed.

End DisjointSequences.

Lemma ratio_nonneg (a b : str) : (0 <= Difflib.ratio a b)%Q.
Proof.
  unfold Difflib.ratio, Difflib._calculate_ratio.
  destruct (length a + length b =? 0); [discriminate |].
  unfold Qle. cbn [Qnum Qden]. lia.
Qed.

(** X5: when the text before the marker in the guess has no character in common
    with a non-empty text (a translation in another script, say, or nothing
    before the marker), the index returned is 0. *)
Theorem process_seq2seq_sbd_disjoint_guess (input_text guess rest : str) :
  input_text <> [] ->
  find guess SENTENCE_BOUNDARY_TOKEN = (-1)%Z ->
  (forall c, In c input_text -> ~ In c guess) ->
  process_seq2seq_sbd input_text (guess ++ SENTENCE_BOUNDARY_TOKEN ++ rest)
  = Some 0%Z.
Proof.
  intros Hne Hfree Hdis.
  pose proof (find_app_sentence_boundary guess rest Hfree) as Hfind.
  unfold process_seq2seq_sbd.
  rewrite process_seq2seq_sbd_run_found by (rewrite Hfind; lia).
  cbn [fst]. rewrite Hfind, slice_to_of_nat.
  rewrite firstn_app, Nat.sub_diag, firstn_O, firstn_all, app_nil_r.
  destruct (nonempty_length input_text Hne) as [n Hlen]. rewrite Hlen.
  destruct (run_best input_text guess n) as (i & Hi & _ & Hlt & _ & Hfirst).
  rewrite Hi. destruct i as [| i]; [reflexivity |].
  exfalso.
  specialize (Hfirst 0 (Nat.lt_0_succ i)).
  assert (Hz : (Difflib.ratio (firstn (S i) input_text) guess == 0)%Q).
  { apply ratio_disjoint.
    - intros c Hc. apply Hdis. exact (In_firstn (S i) input_text c Hc).
    - rewrite length_firstn. lia. }
  rewrite Hz in Hfirst.
  exact (Qlt_not_le _ _ Hfirst (ratio_nonneg (firstn 0 input_text) guess)).
Qed.

Lemma process_seq2seq_sbd_disjoint_guess_witness :
  process_seq2seq_sbd (lit "abc. def.") (lit "XYZ!<sentence-boundary> UVW") = Some 0%Z.
Proof.
  apply (process_seq2seq_sbd_disjoint_guess (lit "abc. def.") (lit "XYZ!") (lit " UVW"));
    [discriminate | reflexivity |].
  intros c Hc Hg. cbn in Hc, Hg.
  repeat (destruct Hc as [<- | Hc];
          [repeat (destruct Hg as [Hg | Hg]; [discriminate Hg |]); exact Hg |]).
  exact Hc.
Defined.

(** ** A sequence matched against a sequence that it begins *)

Section PrefixMatch.

Variables a b : str.
Hypothesis Hlen : length a <= length b.
Hypothesis Hprefix :
  forall x, x < length a -> Difflib.item a x = Difflib.item b x.

Lemma scan_rows_prefix_of_diagonal (m : nat) :
  m <= length a ->
  exists row d size',
    fold_left
      (fun st i => Difflib.scan_row 0 (length b) i (fst st)
                     (Difflib.b2j b (Difflib.item a i))
                     Difflib.j2len_empty (snd st))
      (seq 0 m) (Difflib.j2len_empty, (0, 0, 0))
    = (row, (d, d, size')) /\
    (forall j, row j <= clean_run b j) /\
    (forall j, row j <= prev_clean_run b m) /\
    Difflib.j2lenget_pred row m = prev_clean_run b m /\
    (forall i', i' < m -> clean_run b i' <= size').
Proof.
  induction m as [| m IH]; intro Hm.
  - exists Difflib.j2len_empty, 0, 0. cbn [seq fold_left].
    unfold Difflib.j2len_empty. cbn [Difflib.j2lenget_pred prev_clean_run].
    repeat split; intros; lia.
  - destruct IH as (row & d & sz & E & O1 & O2 & O3 & R3); [lia |].
    rewrite seq_S, fold_left_app, E. cbn [fold_left fst snd Nat.add].
    rewrite Hprefix by lia.
    destruct (scan_row_diagonal b m row (Difflib.b2j b (Difflib.item b m)))
      with (new := Difflib.j2len_empty) (besti := d) (bestj := d) (bestsize := sz)
      as (new' & d' & sz' & E' & R1' & R3' & R4' & R5'); auto.
    + intros j Hj. apply b2j_in in Hj. tauto.
    + apply b2j_sorted.
    + intro j. unfold Difflib.j2len_empty. lia.
    + destruct (Difflib.bpopular b (Difflib.item b m)) eqn:Hp.
      * right. rewrite (clean_run_popular b m Hp).
        unfold Difflib.j2len_empty. lia.
      * left. apply b2j_own_position; [lia | exact Hp].
    + exists new', d', sz'. split; [exact E' |].
      cbn [Difflib.j2lenget_pred prev_clean_run].
      repeat split.
      * intro j. apply R1'.
      * intro j. apply R1'.
      * exact R5'.
      * intros i' Hi'. destruct (Nat.eq_dec i' m) as [-> | Hne];
          [exact R4' | apply R3'; lia].
Qed.

Lemma extend_left_prefix (d : nat) :
  d <= length a ->
  forall size', Difflib.extend_left a b 0 0 d d size' = (0, 0, size' + d).
Proof.
  induction d as [| d IH]; intros Hd size'; cbn [Difflib.extend_left].
  - now rewrite Nat.add_0_r.
  - change (0 <? S d) with true. cbn [andb].
    rewrite Hprefix by lia.
    rewrite Ascii.eqb_refl, IH by lia. f_equal. lia.
Qed.

Lemma extend_right_prefix (n : nat) :
  forall size',
    n = length a - size' -> size' <= length a ->
    Difflib.extend_right a b (length a) (length b) n 0 0 size' = (0, 0, length a).
Proof.
  induction n as [| n IH]; intros size' Hn Hle; cbn [Difflib.extend_right].
  - f_equal. lia.
  - cbn [Nat.add].
    destruct (Nat.ltb_spec size' (length a)) as [_ | H]; [| lia].
    destruct (Nat.ltb_spec size' (length b)) as [_ | H]; [| lia].
    cbn [andb]. rewrite Hprefix by lia. rewrite Ascii.eqb_refl.
    apply IH; lia.
Qed.

Lemma find_longest_match_prefix :
  Difflib.find_longest_match a b 0 (length a) 0 (length b) = (0, 0, length a).
Proof.
  unfold Difflib.find_longest_match.
  pose proof (scan_rows_bounds a b 0 (length a) 0 (length b)
                (Nat.le_0_l _) (Nat.le_0_l _)) as Hin.
  unfold Difflib.scan_rows in Hin |- *. rewrite Nat.sub_0_r in Hin |- *.
  destruct (scan_rows_prefix_of_diagonal (length a) (le_n _))
    as (row & d & sz & E & _).
  rewrite E in Hin |- *. cbn [snd] in Hin |- *. unfold inside in Hin.
  rewrite extend_left_prefix by lia. cbn [Nat.add].
  apply extend_right_prefix; lia.
Qed.

Lemma found_blocks_prefix : total_size (Difflib.found_blocks a b) = length a.
Proof.
  unfold Difflib.found_blocks.
  replace (2 * length a + 1) with (S (2 * length a)) by lia.
  cbn [Difflib.blocks_loop].
  rewrite find_longest_match_prefix.
  destruct (Nat.eqb_spec (length a) 0) as [E | _].
  - destruct (2 * length a); cbn [Difflib.blocks_loop]; now rewrite E.
  - rewrite Nat.ltb_irrefl. cbn [andb Nat.add].
    rewrite Nat.ltb_irrefl.
    destruct (2 * length a); cbn [Difflib.blocks_loop app andb];
      rewrite total_size_cons; cbn [Difflib.size snd];
      change (total_size []) with 0; lia.
Qed.

Lemma ratio_prefix :
  Difflib.ratio a b = Difflib._calculate_ratio (length a) (length a + length b).
Proof.
  unfold Difflib.ratio.
  fold (total_size (Difflib.get_matching_blocks a b)).
  now rewrite total_size_get_matching_blocks, found_blocks_prefix.
Qed.

End PrefixMatch.

Lemma ratio_firstn_prefix (i : nat) (s extra : str) :
  i <= length s ->
  Difflib.ratio (firstn i s) (s ++ extra)
  = Difflib._calculate_ratio i (i + length (s ++ extra)).
Proof.
  intro Hi.
  rewrite ratio_prefix.
  - now rewrite length_firstn, Nat.min_l by lia.
  - rewrite length_firstn, length_app. lia.
  - intros x Hx. rewrite length_firstn in Hx. unfold Difflib.item.
    rewrite nth_firstn.
    destruct (Nat.ltb_spec x i) as [_ | H]; [| lia].
    rewrite app_nth1 by lia. reflexivity.
Qed.

Lemma _calculate_ratio_increasing (i j g : nat) :
  i < j -> 0 < g ->
  (Difflib._calculate_ratio i (i + g) < Difflib._calculate_ratio j (j + g))%Q.
Proof.
  intros Hij Hg. unfold Difflib._calculate_ratio.
  destruct (Nat.eqb_spec (i + g) 0) as [E | Ei]; [lia |].
  destruct (Nat.eqb_spec (j + g) 0) as [E | Ej]; [lia |].
  unfold Qlt. cbn [Qnum Qden]. rewrite !Zpos_of_nat by assumption. nia.
Qed.

(** X4: when the text before the marker in the guess begins with the whole of
    a non-empty text (it is the text, or the text and more), the index
    returned is [len(input_text) - 1], the largest index that the search
    tries: the last character of the text is left out. *)
Theorem process_seq2seq_sbd_whole_text (input_text extra rest : str) :
  input_text <> [] ->
  find (input_text ++ extra) SENTENCE_BOUNDARY_TOKEN = (-1)%Z ->
  process_seq2seq_sbd input_text
    ((input_text ++ extra) ++ SENTENCE_BOUNDARY_TOKEN ++ rest)
  = Some (Z.of_nat (length input_text) - 1)%Z.
Proof.
  intros Hne Hfree.
  pose proof (find_app_sentence_boundary (input_text ++ extra) rest Hfree) as Hfind.
  unfold process_seq2seq_sbd.
  rewrite process_seq2seq_sbd_run_found by (rewrite Hfind; lia).
  cbn [fst]. rewrite Hfind, slice_to_of_nat.
  rewrite firstn_app, Nat.sub_diag, firstn_O, firstn_all, app_nil_r.
  destruct (nonempty_length input_text Hne) as [n Hlen]. rewrite Hlen.
  destruct (run_best input_text (input_text ++ extra) n)
    as (i & Hi & _ & Hlt & Hmax & _).
  rewrite Hi. cbn [option_map]. f_equal.
  destruct (Nat.eq_dec i n) as [-> | Hin]; [lia |].
  exfalso.
  specialize (Hmax n (Nat.lt_succ_diag_r n)).
  rewrite !ratio_firstn_prefix in Hmax by lia.
  apply (Qle_not_lt _ _ Hmax).
  apply _calculate_ratio_increasing; [lia |].
  rewrite length_app. lia.
Qed.

Lemma process_seq2seq_sbd_whole_text_witness :
  process_seq2seq_sbd (lit "Hello.") (lit "Hello.<sentence-boundary>") = Some 5%Z.
Proof.
  apply (process_seq2seq_sbd_whole_text (lit "Hello.") (lit "") (lit ""));
    [discriminate | reflexivity].
Defined.

(** ** [str.split] around an occurrence of the separator *)

Lemma startswith_app_r (sep v w : str) :
  startswith sep v = true -> startswith sep (v ++ w) = true.
Proof.
  revert v. induction sep as [| c sep IH]; intros v H; [reflexivity |].
  destruct v as [| d v]; cbn [startswith app] in H |- *; [discriminate |].
  apply andb_prop in H. destruct H as [H1 H2].
  now rewrite H1, (IH v H2).
Qed.

Lemma startswith_length (sep v : str) :
  startswith sep v = true -> length sep <= length v.
Proof.
  revert v. induction sep as [| c sep IH]; intros v H; cbn [length]; [lia |].
  destruct v as [| d v]; cbn [startswith length] in H |- *; [discriminate |].
  apply andb_prop in H. destruct H as [_ H]. apply IH in H. lia.
Qed.

Lemma find_from_shift (sub s : str) :
  forall p q, find_from sub s p = (-1)%Z -> find_from sub s q = (-1)%Z.
Proof.
  induction s as [| c s IH]; intros p q H; cbn [find_from] in H |- *.
  - destruct (startswith sub []); [lia | reflexivity].
  - destruct (startswith sub (c :: s)); [lia | exact (IH _ _ H)].
Qed.

Lemma find_from_none_suffix (sub s : str) :
  forall pos, find_from sub s pos = (-1)%Z ->
  forall p v, s = p ++ v -> startswith sub v = false.
Proof.
  induction s as [| c s IH]; intros pos H p v E.
  - destruct p; [| discriminate]. cbn in E. subst v.
    cbn [find_from] in H. destruct (startswith sub []); [lia | reflexivity].
  - cbn [find_from] in H.
    destruct (startswith sub (c :: s)) eqn:F; [lia |].
    destruct p as [| c' p]; cbn [app] in E.
    + now subst v.
    + injection E as _ E. exact (IH _ H p v E).
Qed.

Lemma suffix_keeps_last (p v x0 : str) (e : ascii) :
  p ++ v = x0 ++ [e] -> v <> [] -> exists v0, v = v0 ++ [e].
Proof.
  intros E Hv.
  destruct (exists_last Hv) as (v0 & e' & ->).
  rewrite app_assoc in E. apply app_inj_tail in E. destruct E as [_ ->].
  now exists v0.
Qed.

Lemma split_go_skip (sep u t cur : str) :
  split_go sep (u ++ t) cur (length u) = split_go sep t cur 0.
Proof.
  induction u as [| c u IH]; [reflexivity |].
  cbn [app length split_go]. exact IH.
Qed.

Lemma split_go_at_sep (d : ascii) (sep' tail cur : str) :
  split_go (d :: sep') ((d :: sep') ++ tail) cur 0
  = rev cur :: split_go (d :: sep') tail [] 0.
Proof.
  pose proof (startswith_app (d :: sep') tail) as Hs.
  cbn [app] in Hs |- *. cbn [split_go]. rewrite Hs.
  replace (length (d :: sep') - 1) with (length sep') by (cbn [length]; lia).
  now rewrite split_go_skip.
Qed.

Lemma split_go_nonempty (sep s : str) :
  forall cur skip, split_go sep s cur skip <> [].
Proof.
  induction s as [| c s IH]; intros cur skip; cbn [split_go]; [discriminate |].
  destruct skip; [| apply IH].
  destruct (startswith sep (c :: s)); [discriminate | apply IH].
Qed.

(** Without an occurrence of the separator the string is the only piece. *)
Lemma split_go_no_sep (sep z : str) :
  forall pos cur,
    find_from sep z pos = (-1)%Z -> split_go sep z cur 0 = [rev cur ++ z].
Proof.
  induction z as [| c z IH]; intros pos cur H; cbn [split_go find_from] in H |- *.
  - now rewrite app_nil_r.
  - destruct (startswith sep (c :: z)); [lia |].
    rewrite (IH _ _ H). cbn [rev]. now rewrite <- app_assoc.
Qed.

(** A separator after [x], when no occurrence that begins in [x] runs over
    the end of [x]: the pieces of [x], then the pieces of what follows. *)
Lemma split_go_app_sep (sep tail : str) (x : str) :
  sep <> [] ->
  forall cur skip,
    skip <= length x ->
    (forall p v, x = p ++ v -> v <> [] ->
                 startswith sep (v ++ sep ++ tail) = true ->
                 startswith sep v = true) ->
    split_go sep (x ++ sep ++ tail) cur skip
    = split_go sep x cur skip ++ split_go sep tail [] 0.
Proof.
  intro Hsep.
  induction x as [| c x IH]; intros cur skip Hskip Hin.
  - cbn [length] in Hskip. replace skip with 0 by lia.
    destruct sep as [| d sep']; [contradiction |].
    rewrite app_nil_l, split_go_at_sep. reflexivity.
  - assert (Hin' : forall p v, x = p ++ v -> v <> [] ->
                     startswith sep (v ++ sep ++ tail) = true ->
                     startswith sep v = true).
    { intros p v E. apply (Hin (c :: p)). now rewrite E. }
    cbn [app split_go length] in Hskip |- *.
    destruct skip as [| n]; [| apply IH; [lia | exact Hin']].
    destruct (startswith sep (c :: x)) eqn:F.
    + change (c :: x ++ sep ++ tail) with ((c :: x) ++ sep ++ tail).
      rewrite (startswith_app_r sep (c :: x) (sep ++ tail) F).
      cbn [app]. rewrite IH; [reflexivity | | exact Hin'].
      apply startswith_length in F. cbn [length] in F. lia.
    + destruct (startswith sep (c :: x ++ sep ++ tail)) eqn:G.
      * rewrite (Hin [] (c :: x) eq_refl ltac:(discriminate) G) in F.
        discriminate.
      * apply IH; [lia | exact Hin'].
Qed.

(** A text [z] without separator after [x], when no occurrence that begins
    in [x] runs into [z]: [z] is added to the last piece of [x]. *)
Lemma split_go_app_piece (sep z : str) (x : str) :
  forall cur skip,
    skip <= length x ->
    (forall p v, x = p ++ v -> v <> [] ->
                 startswith sep (v ++ z) = true -> startswith sep v = true) ->
    find_from sep z 0 = (-1)%Z ->
    exists front lastp,
      split_go sep x cur skip = front ++ [lastp] /\
      split_go sep (x ++ z) cur skip = front ++ [lastp ++ z].
Proof.
  induction x as [| c x IH]; intros cur skip Hskip Hin Hz.
  - cbn [length] in Hskip. replace skip with 0 by lia.
    exists [], (rev cur). cbn [app split_go].
    split; [reflexivity |]. exact (split_go_no_sep sep z 0 cur Hz).
  - assert (Hin' : forall p v, x = p ++ v -> v <> [] ->
                     startswith sep (v ++ z) = true -> startswith sep v = true).
    { intros p v E. apply (Hin (c :: p)). now rewrite E. }
    cbn [app split_go length] in Hskip |- *.
    destruct skip as [| n]; [| apply IH; [lia | exact Hin' | exact Hz]].
    destruct (startswith sep (c :: x)) eqn:F.
    + change (c :: x ++ z) with ((c :: x) ++ z).
      rewrite (startswith_app_r sep (c :: x) z F). cbn [app].
      destruct (IH [] (length sep - 1)) as (front & lastp & E1 & E2);
        [apply startswith_length in F; cbn [length] in F; lia
        | exact Hin' | exact Hz |].
      exists (rev cur :: front), lastp. rewrite E1, E2. split; reflexivity.
    + destruct (startswith sep (c :: x ++ z)) eqn:G.
      * rewrite (Hin [] (c :: x) eq_refl ltac:(discriminate) G) in F.
        discriminate.
      * apply IH; [lia | exact Hin' | exact Hz].
Qed.

(** A separator made of one repeated character cannot begin before a
    different character and run over it. *)
Lemma startswith_repeat_stops (d e : ascii) (n : nat) (w : str) :
  e <> d ->
  forall v, startswith (repeat d n) (v ++ e :: w) = true ->
            startswith (repeat d n) v = true.
Proof.
  intro Hne. induction n as [| n IH]; intros v H; [reflexivity |].
  destruct v as [| c v]; cbn [repeat startswith app] in H |- *.
  - apply andb_prop in H. destruct H as [H _].
    apply Ascii.eqb_eq in H. congruence.
  - apply andb_prop in H. destruct H as [H1 H2].
    now rewrite H1, (IH v H2).
Qed.

Lemma no_straddle_before (d e : ascii) (n : nat) (x w : str) :
  e <> d ->
  forall p v, x = p ++ v -> v <> [] ->
              startswith (repeat d n) (v ++ e :: w) = true ->
              startswith (repeat d n) v = true.
Proof.
  intros Hne p v _ _. now apply startswith_repeat_stops.
Qed.

Lemma no_straddle_after (d e : ascii) (n : nat) (x0 w : str) :
  e <> d ->
  forall p v, x0 ++ [e] = p ++ v -> v <> [] ->
              startswith (repeat d n) (v ++ w) = true ->
              startswith (repeat d n) v = true.
Proof.
  intros Hne p v E Hv H.
  destruct (suffix_keeps_last p v x0 e (eq_sym E) Hv) as [v0 ->].
  rewrite <- app_assoc in H. cbn [app] in H.
  apply startswith_app_r. exact (startswith_repeat_stops d e n w Hne v0 H).
Qed.

Lemma no_straddle_single (d : ascii) (x w : str) :
  forall p v, x = p ++ v -> v <> [] ->
              startswith [d] (v ++ w) = true -> startswith [d] v = true.
Proof.
  intros p v _ Hv H. destruct v as [| c v]; [contradiction |].
  cbn [startswith app] in H |- *.
  apply andb_prop in H. destruct H as [H _]. now rewrite H.
Qed.

(** ** [parse_fewshot_response] on well-formed and malformed responses *)

Lemma FEWSHOT_BOUNDARY_TOKEN_repeat :
  FEWSHOT_BOUNDARY_TOKEN = repeat "-"%char 10.
Proof. reflexivity. Qed.

Lemma find_cons_other (sep s : str) (d e : ascii) (sep' : str) :
  sep = d :: sep' -> e <> d ->
  find s sep = (-1)%Z -> find (e :: s) sep = (-1)%Z.
Proof.
  intros -> Hne H. unfold find in *. cbn [find_from startswith].
  destruct (Ascii.eqb_spec d e) as [E | _]; [congruence |].
  cbn [andb]. exact (find_from_shift _ _ 0 1 H).
Qed.

Lemma ends_with_other (body line : str) :
  (forall u, line <> u ++ ["-"%char]) ->
  exists x0 e, body ++ nl :: line = x0 ++ [e] /\ e <> "-"%char.
Proof.
  intro H. destruct line as [| c l].
  - exists body, nl. split; [reflexivity | discriminate].
  - destruct (@exists_last _ (c :: l) ltac:(discriminate)) as (l0 & e & E).
    exists (body ++ nl :: l0), e. split.
    + rewrite E, <- app_assoc. reflexivity.
    + intros ->. exact (H l0 E).
Qed.

Lemma parse_fewshot_response_core (body line tail : str) :
  find line [nl] = (-1)%Z ->
  find line FEWSHOT_BOUNDARY_TOKEN = (-1)%Z ->
  (forall u, line <> u ++ ["-"%char]) ->
  find tail FEWSHOT_BOUNDARY_TOKEN = (-1)%Z ->
  parse_fewshot_response (body ++ [nl] ++ line ++ FEWSHOT_BOUNDARY_TOKEN ++ tail)
  = Some line.
Proof.
  intros Hnl Hsep Hend Htail.
  unfold parse_fewshot_response, split.
  rewrite FEWSHOT_BOUNDARY_TOKEN_repeat in *.
  assert (Hdash : nl <> "-"%char) by discriminate.
  replace (body ++ [nl] ++ line ++ repeat "-"%char 10 ++ tail)
    with ((body ++ nl :: line) ++ repeat "-"%char 10 ++ tail)
    by (rewrite <- app_assoc; reflexivity).
  destruct (ends_with_other body line Hend) as (x0 & e & Ex & He).
  rewrite split_go_app_sep; [| discriminate | cbn [length]; lia |].
  2:{ rewrite Ex. apply no_straddle_after. exact He. }
  rewrite (split_go_no_sep (repeat "-"%char 10) tail 0 [] Htail).
  destruct (split_go_app_piece (repeat "-"%char 10) (nl :: line) body [] 0)
    as (front & lastp & _ & E2).
  - lia.
  - apply no_straddle_before. exact Hdash.
  - exact (find_cons_other (repeat "-"%char 10) line "-"%char nl
             (repeat "-"%char 9) eq_refl Hdash Hsep).
  - rewrite E2. cbn [rev app].
    assert (Eseg : forall seg : str,
               (front ++ [seg]) ++ [tail] = front ++ [seg; tail])
      by (intro seg; rewrite <- app_assoc; reflexivity).
    rewrite !Eseg, length_app. cbn [length].
    destruct (Nat.ltb_spec (length front + 2) 2) as [H | _]; [lia |].
    rewrite getitem_neg_second_to_last.
    change (lastp ++ nl :: line) with (lastp ++ [nl] ++ line).
    rewrite split_go_app_sep; [| discriminate | cbn [length]; lia |].
    2:{ apply no_straddle_single. }
    rewrite (split_go_no_sep [nl] line 0 [] Hnl). cbn [rev app].
    rewrite length_app. cbn [length].
    pose proof (split_go_nonempty [nl] lastp [] 0) as Hne.
    destruct (split_go [nl] lastp [] 0) as [| h t] eqn:Ep; [contradiction |].
    destruct (Nat.ltb_spec (length (h :: t) + 1) 2) as [H | _];
      [cbn [length] in H; lia |].
    now rewrite getitem_neg_last.
Qed.

(** X8: a response in which the last separator comes right after a line, itself
    after a newline: the guess is that line.  The line has no newline, holds
    no separator and does not end with a dash; nothing after the separator
    is a separator. *)
Theorem parse_fewshot_response_last_line (body line tail : str) :
  find line [nl] = (-1)%Z ->
  find line FEWSHOT_BOUNDARY_TOKEN = (-1)%Z ->
  (forall u, line <> u ++ ["-"%char]) ->
  find tail FEWSHOT_BOUNDARY_TOKEN = (-1)%Z ->
  parse_fewshot_response (body ++ [nl] ++ line ++ FEWSHOT_BOUNDARY_TOKEN ++ tail)
  = Some line.
Proof.
  exact (parse_fewshot_response_core body line tail).
Qed.

Lemma not_ending_with_dash (l0 : str) (e : ascii) :
  e <> "-"%char -> forall u, l0 ++ [e] <> u ++ ["-"%char].
Proof.
  intros He u E. apply app_inj_tail in E. destruct E as [_ E]. contradiction.
Qed.

Lemma parse_fewshot_response_last_line_witness :
  parse_fewshot_response
    (lit "<detect-sentence-boundaries> Hi. Yo" ++ [nl] ++ lit "Hi. <sentence-boundary>"
     ++ FEWSHOT_BOUNDARY_TOKEN ++ [nl])
  = Some (lit "Hi. <sentence-boundary>").
Proof.
  apply (parse_fewshot_response_last_line
           (lit "<detect-sentence-boundaries> Hi. Yo")
           (lit "Hi. <sentence-boundary>") [nl]);
    [reflexivity | reflexivity | | reflexivity].
  exact (not_ending_with_dash (lit "Hi. <sentence-boundary") ">"%char
           ltac:(discriminate)).
Defined.

(** X9: a response without the separator has no guess. *)
Theorem parse_fewshot_response_no_separator (response_text : str) :
  find response_text FEWSHOT_BOUNDARY_TOKEN = (-1)%Z ->
  parse_fewshot_response response_text = None.
Proof.
  intro H. unfold parse_fewshot_response, split.
  rewrite (split_go_no_sep FEWSHOT_BOUNDARY_TOKEN response_text 0 [] H).
  reflexivity.
Qed.

Lemma parse_fewshot_response_no_separator_witness :
  parse_fewshot_response (lit "Hi. <sentence-boundary>") = None.
Proof.
  apply parse_fewshot_response_no_separator. reflexivity.
Defined.

Lemma split_go_newline_free (s : str) :
  forall cur skip,
    ~ In nl cur ->
    Forall (fun piece => ~ In nl piece) (split_go [nl] s cur skip).
Proof.
  induction s as [| c s IH]; intros cur skip Hcur; cbn [split_go].
  - constructor; [| constructor]. now rewrite <- in_rev.
  - destruct skip as [| n]; [| now apply IH].
    cbn [startswith].
    destruct (Ascii.eqb_spec nl c) as [E | E]; cbn [andb].
    + constructor; [now rewrite <- in_rev | apply IH; intros []].
    + apply IH. intros [H | H]; [congruence | contradiction].
Qed.

(** X10: a guess returned by [parse_fewshot_response] is one line: it holds no
    newline. *)
Theorem parse_fewshot_response_one_line (response_text line : str) :
  parse_fewshot_response response_text = Some line -> ~ In nl line.
Proof.
  unfold parse_fewshot_response.
  destruct (length (split response_text FEWSHOT_BOUNDARY_TOKEN) <? 2);
    [discriminate |].
  set (segment := getitem_neg (split response_text FEWSHOT_BOUNDARY_TOKEN) 2).
  destruct (Nat.ltb_spec (length (split segment [nl])) 2) as [_ | Hlen];
    [discriminate |].
  intro H. injection H as <-.
  pose proof (split_go_newline_free segment [] 0 (fun H => H)) as Hall.
  rewrite Forall_forall in Hall. apply Hall.
  unfold getitem_neg. apply nth_In. unfold split in *. lia.
Qed.

Lemma parse_fewshot_response_one_line_witness :
  parse_fewshot_response
    (lit "<detect-sentence-boundaries> Hi. Yo" ++ [nl]
     ++ lit "Hi. <sentence-boundary>" ++ FEWSHOT_BOUNDARY_TOKEN ++ [nl])
  = Some (lit "Hi. <sentence-boundary>") /\
  ~ In nl (lit "Hi. <sentence-boundary>").
Proof.
  assert (H : parse_fewshot_response
                (lit "<detect-sentence-boundaries> Hi. Yo" ++ [nl]
                 ++ lit "Hi. <sentence-boundary>" ++ FEWSHOT_BOUNDARY_TOKEN ++ [nl])
              = Some (lit "Hi. <sentence-boundary>")) by reflexivity.
  split; [exact H |].
  exact (parse_fewshot_response_one_line _ _ H).
Defined.

(** ** [generate_fewshot_sbd_prompt] followed by [parse_fewshot_response] *)

Lemma find_from_app_none (sep p w : str) :
  (forall q v, p = q ++ v -> v <> [] -> startswith sep (v ++ w) = false) ->
  find_from sep w 0 = (-1)%Z ->
  forall pos, find_from sep (p ++ w) pos = (-1)%Z.
Proof.
  induction p as [| c p IH]; intros Hin Hw pos.
  - exact (find_from_shift sep w 0 pos Hw).
  - cbn [app find_from].
    change (c :: p ++ w) with ((c :: p) ++ w).
    rewrite (Hin [] (c :: p) eq_refl ltac:(discriminate)).
    apply IH; [| exact Hw].
    intros q v E. apply (Hin (c :: q)). now rewrite E.
Qed.

Lemma find_app_clean (d e : ascii) (n : nat) (p0 w : str) :
  e <> d ->
  find (p0 ++ [e]) (repeat d n) = (-1)%Z ->
  find w (repeat d n) = (-1)%Z ->
  find ((p0 ++ [e]) ++ w) (repeat d n) = (-1)%Z.
Proof.
  intros Hne Hp Hw. unfold find in *.
  apply find_from_app_none; [| exact Hw].
  intros q v E Hv.
  destruct (startswith (repeat d n) (v ++ w)) eqn:F; [| reflexivity].
  rewrite <- (find_from_none_suffix (repeat d n) (p0 ++ [e]) 0 Hp q v E).
  symmetry. exact (no_straddle_after d e n p0 w Hne q v E Hv F).
Qed.

(** X11: a response that is the prompt followed by a continuation, with no
    separator in the guess window and the continuation, parses to the empty
    string: the guess is read between the last newline and the last
    separator of the exemplar block, not in the continuation. *)
Theorem parse_fewshot_response_of_prompt
        (input_text : str) (sentence_guess_length : Z) (continuation : str) :
  find (slice_to input_text sentence_guess_length ++ continuation)
       FEWSHOT_BOUNDARY_TOKEN = (-1)%Z ->
  parse_fewshot_response
    (generate_fewshot_sbd_prompt input_text sentence_guess_length ++ continuation)
  = Some [].
Proof.
  intro H.
  set (window := slice_to input_text sentence_guess_length) in *.
  set (body := firstn 477 fewshot_prompt).
  assert (E : fewshot_prompt
              = body ++ [nl] ++ [] ++ FEWSHOT_BOUNDARY_TOKEN ++ [nl])
    by (vm_compute; reflexivity).
  assert (R : generate_fewshot_sbd_prompt input_text sentence_guess_length
              ++ continuation
              = body ++ [nl] ++ [] ++ FEWSHOT_BOUNDARY_TOKEN
                ++ (lit (String nl "<detect-sentence-boundaries>") ++ [" "%char])
                ++ window ++ continuation).
  { unfold generate_fewshot_sbd_prompt. fold window. rewrite E.
    rewrite <- !app_assoc. reflexivity. }
  rewrite R.
  apply parse_fewshot_response_core; try reflexivity.
  - intros u Hu. destruct u; discriminate.
  - rewrite FEWSHOT_BOUNDARY_TOKEN_repeat in *.
    apply find_app_clean; [discriminate | reflexivity | exact H].
Qed.

Lemma parse_fewshot_response_of_prompt_witness :
  parse_fewshot_response
    (generate_fewshot_sbd_prompt (lit "Hi. Yo.") 150
     ++ String.list_ascii_of_string (String nl "Hi. <sentence-boundary>"))
  = Some [].
Proof.
  apply (parse_fewshot_response_of_prompt (lit "Hi. Yo.") 150).
  reflexivity.
Defined.

Lemma no_straddle_clean_end (d : ascii) (n : nat) (x w : str) :
  (forall u, x <> u ++ [d]) ->
  forall p v, x = p ++ v -> v <> [] ->
              startswith (repeat d n) (v ++ w) = true ->
              startswith (repeat d n) v = true.
Proof.
  intros Hend p v E Hv H.
  destruct (exists_last Hv) as (v0 & e & ->).
  assert (He : e <> d).
  { intros ->. apply (Hend (p ++ v0)). now rewrite E, app_assoc. }
  rewrite <- app_assoc in H. cbn [app] in H.
  apply startswith_app_r. exact (startswith_repeat_stops d e n w He v0 H).
Qed.

(** X13: a response whose last separator comes right after a segment of one
    line (no newline in it) has no guess, although the separator is there:
    the answer must be preceded by a newline inside its segment. *)
Theorem parse_fewshot_response_needs_newline (body segment tail : str) :
  find segment [nl] = (-1)%Z ->
  find segment FEWSHOT_BOUNDARY_TOKEN = (-1)%Z ->
  (forall u, segment <> u ++ ["-"%char]) ->
  (forall u, body <> u ++ ["-"%char]) ->
  find tail FEWSHOT_BOUNDARY_TOKEN = (-1)%Z ->
  parse_fewshot_response
    (body ++ FEWSHOT_BOUNDARY_TOKEN ++ segment ++ FEWSHOT_BOUNDARY_TOKEN ++ tail)
  = None.
Proof.
  intros Hnl Hsep Hend Hbody Htail.
  unfold parse_fewshot_response, split.
  rewrite FEWSHOT_BOUNDARY_TOKEN_repeat in *.
  rewrite split_go_app_sep; [| discriminate | lia |].
  2:{ apply no_straddle_clean_end. exact Hbody. }
  rewrite split_go_app_sep; [| discriminate | lia |].
  2:{ apply no_straddle_clean_end. exact Hend. }
  rewrite (split_go_no_sep (repeat "-"%char 10) tail 0 [] Htail).
  rewrite (split_go_no_sep (repeat "-"%char 10) segment 0 [] Hsep).
  cbn [rev app].
  pose proof (split_go_nonempty (repeat "-"%char 10) body [] 0) as Hne.
  destruct (exists_last Hne) as (front & lastp & ->).
  rewrite <- app_assoc. cbn [app].
  change [lastp; segment; tail] with ([lastp] ++ [segment; tail]).
  rewrite app_assoc, length_app. cbn [length].
  destruct (Nat.ltb_spec (length (front ++ [lastp]) + 2) 2) as [H | _]; [lia |].
  rewrite getitem_neg_second_to_last.
  rewrite (split_go_no_sep [nl] segment 0 [] Hnl). reflexivity.
Qed.

Lemma parse_fewshot_response_needs_newline_witness :
  parse_fewshot_response
    (lit "<examples>" ++ FEWSHOT_BOUNDARY_TOKEN ++ lit "Hi. <sentence-boundary>"
     ++ FEWSHOT_BOUNDARY_TOKEN ++ lit "")
  = None.
Proof.
  apply (parse_fewshot_response_needs_newline
           (lit "<examples>") (lit "Hi. <sentence-boundary>") (lit ""));
    [reflexivity | reflexivity | | | reflexivity].
  - exact (not_ending_with_dash (lit "Hi. <sentence-boundary") ">"%char
             ltac:(discriminate)).
  - exact (not_ending_with_dash (lit "<examples") ">"%char ltac:(discriminate)).
Defined.
